(** * Uniqore listing pages: tag join, filter, sort, pagination, calendar link

    Shallow embedding of the client-side pipeline shared by
    [src/app/events/page.tsx] (component [Events]) and the articles listing
    (component [Articles]).  The two components run the same code on records
    that differ only in their variant fields ([time], [location], [end_time]
    for events, none for articles), so the embedding is generic in the
    type [V] of the variant fields.

    JavaScript numbers that hold ids, page numbers and lengths are integers
    in [Z]; strings are [string]; arrays are [list]; the object used as a
    dictionary ([tagMap]) is a [gmap]. *)

From Stdlib Require Import ZArith List String Ascii Lia.
From stdpp Require Import base option list gmap strings sorting.

Local Open Scope string_scope.
Local Open Scope list_scope.
Local Open Scope Z_scope.

(* ================================================================== *)
(** * Part I. Definitions *)
(* ================================================================== *)

(** ** Records of the CMS *)

(** A row of the [tags] collection: the code reads [tag.id] and [tag.tag]. *)
Module Tag.
Record t := mk { id : Z; tag : string }.
End Tag.

(** A row of the join collection ([events_tags] or [articles_tags]).  The
    foreign key is [events_id] on the events page and [articles_id] on the
    articles page; [tags_id] is the key into the tag dictionary. *)
Module JoinRow.
Record t := mk { items_id : Z; tags_id : Z }.
End JoinRow.

(** A row of the primary collection as the CMS returns it, before the join.
    [variant] stands for the remaining fields carried along by the object
    spread [...item]; a [tags] field of the raw row, if there is one, is
    overwritten by the join and so is left out. *)
Module Item.
Record t (V : Type) := mk {
  id : Z;
  slug : string;
  title : string;
  image : string;
  date_created : string;
  variant : V
}.
Arguments mk {V}.
Arguments id {V}.
Arguments slug {V}.
Arguments title {V}.
Arguments image {V}.
Arguments date_created {V}.
Arguments variant {V}.
End Item.

(** [type post] of the listing components. *)
Record post (V : Type) := mkPost {
  id : Z;
  slug : string;
  title : string;
  image : string;
  date_created : string;
  tags : list string;
  variant : V
}.
Arguments mkPost {V}.
Arguments id {V}.
Arguments slug {V}.
Arguments title {V}.
Arguments image {V}.
Arguments date_created {V}.
Arguments tags {V}.
Arguments variant {V}.

(** Variant fields of an event. *)
Record event_fields := mkEvent {
  time : string;
  location : string;
  end_time : string
}.

(** ** Promises, exceptions and the console *)

(** The value thrown by a failed request. *)
Definition error := string.

(** Outcome of synchronous code: a returned value or a thrown exception. *)
Inductive completion (A : Type) : Type :=
| Return (a : A)
| Throw (e : error).
Arguments Return {A}.
Arguments Throw {A}.

(** What becomes of a promise: fulfilled with a value, rejected with a
    reason, or never settled (no timeout is set on the requests). *)
Inductive promise (A : Type) : Type :=
| Fulfilled (a : A)
| Rejected (e : error)
| Pending.
Arguments Fulfilled {A}.
Arguments Rejected {A}.
Arguments Pending {A}.

(** [await p]: resumes with the value, throws the reason, or never resumes
    ([None]). *)
Definition await {A : Type} (p : promise A) : option (completion A) :=
  match p with
  | Fulfilled a => Some (Return a)
  | Rejected e => Some (Throw e)
  | Pending => None
  end.

(** A call of [console.error(msg, err)]. *)
Inductive log_entry := console_error (msg : string) (err : error).

Definition is_rejected {A : Type} (p : promise A) : bool :=
  match p with
  | Rejected _ => true
  | _ => false
  end.

Definition is_pending {A : Type} (p : promise A) : bool :=
  match p with
  | Pending => true
  | _ => false
  end.

(** [Promise.all([p, q, r])]: fulfilled with the three values when all three
    promises are; rejected with the reason of a rejected promise as soon as
    one is, whatever becomes of the others; pending for ever when none is
    rejected and one never settles.  Which reason wins when several requests
    fail depends on the order in which they settle, so the embedding is a
    relation. *)
Inductive Promise_all {A B C : Type} :
  promise A → promise B → promise C → promise (A * B * C) → Prop :=
| all_fulfilled a b c :
    Promise_all (Fulfilled a) (Fulfilled b) (Fulfilled c) (Fulfilled (a, b, c))
| all_rejected_1 e q r : Promise_all (Rejected e) q r (Rejected e)
| all_rejected_2 p e r : Promise_all p (Rejected e) r (Rejected e)
| all_rejected_3 p q e : Promise_all p q (Rejected e) (Rejected e)
| all_pending p q r :
    is_rejected p || is_rejected q || is_rejected r = false →
    is_pending p || is_pending q || is_pending r = true →
    Promise_all p q r Pending.

(** An executable resolution of the race: the first rejected promise in
    array order.  It is one of the outcomes [Promise_all] allows. *)
Definition Promise_all_in_order {A B C : Type}
    (p : promise A) (q : promise B) (r : promise C) : promise (A * B * C) :=
  match p, q, r with
  | Rejected e, _, _ => Rejected e
  | _, Rejected e, _ => Rejected e
  | _, _, Rejected e => Rejected e
  | Fulfilled a, Fulfilled b, Fulfilled c => Fulfilled (a, b, c)
  | _, _, _ => Pending
  end.

(** ** Tag-join aggregator ([fetchEventsWithTags], [fetchArticlesWithTags]) *)

(** JavaScript truthiness of a string: only the empty string is falsy. *)
Definition Boolean (s : string) : bool :=
  match s with
  | EmptyString => false
  | String _ _ => true
  end.

(** [tagMap[k] || '']: a missing key reads as [undefined], which is falsy. *)
Definition or_empty (o : option string) : string :=
  match o with
  | Some s => if Boolean s then s else ""
  | None => ""
  end.

(** [tags.reduce((acc, tag) => { acc[tag.id] = tag.tag; return acc }, {})] *)
Definition tagMap (tags : list Tag.t) : gmap Z string :=
  foldl (λ acc tag, <[Tag.id tag := Tag.tag tag]> acc) ∅ tags.

Section Aggregator.
Context {V : Type}.

(** [joins.filter(j => j.items_id === item.id).map(j => tagMap[j.tags_id] || '')] *)
Definition relatedTags (joins : list JoinRow.t) (tm : gmap Z string)
    (item : Item.t V) : list string :=
  (λ j, or_empty (tm !! JoinRow.tags_id j))
    <$> filter (λ j, JoinRow.items_id j = Item.id item) joins.

(** [{ ...item, tags: relatedTags.filter(Boolean) }] *)
Definition withTags (joins : list JoinRow.t) (tm : gmap Z string)
    (item : Item.t V) : post V :=
  {| id := Item.id item;
     slug := Item.slug item;
     title := Item.title item;
     image := Item.image item;
     date_created := Item.date_created item;
     tags := filter (λ s, Boolean s = true) (relatedTags joins tm item);
     variant := Item.variant item |}.

(** The join proper: the body of the [try] block after the [await]. *)
Definition aggregate (items : list (Item.t V)) (joins : list JoinRow.t)
    (tags : list Tag.t) : list (post V) :=
  withTags joins (tagMap tags) <$> items.

(** The [try] block: the [await] rethrows a rejection, otherwise the join
    is returned; [None] when the [await] never resumes. *)
Definition try_block
    (fetched : promise (list (Item.t V) * list JoinRow.t * list Tag.t))
    : option (completion (list (post V))) :=
  match await fetched with
  | Some (Return (items, joins, tags)) =>
      Some (Return (aggregate items joins tags))
  | Some (Throw e) => Some (Throw e)
  | None => None
  end.

(** [try { ... } catch (err) { console.error(msg, err); return [] }]:
    the promise returned to the caller together with the console output.
    [msg] is ['Error fetching events with tags:'] or
    ['Error fetching articles with tags:']. *)
Definition try_catch (msg : string)
    (fetched : promise (list (Item.t V) * list JoinRow.t * list Tag.t))
    : promise (list (post V)) * list log_entry :=
  match try_block fetched with
  | Some (Return r) => (Fulfilled r, [])
  | Some (Throw err) => (Fulfilled [], [console_error msg err])
  | None => (Pending, [])
  end.

(** The whole aggregator, from what becomes of the three requests
    [directus.request(readItems(...))] for the primary collection, the join
    collection and the tags. *)
Definition fetchWithTags (msg : string)
    (p : promise (list (Item.t V))) (q : promise (list JoinRow.t))
    (r : promise (list Tag.t))
    (out : promise (list (post V)) * list log_entry) : Prop :=
  ∃ fetched, Promise_all p q r fetched ∧ out = try_catch msg fetched.

(** The labels a join row list resolves to, written as the specification
    words it: keep, in join-row order, the label of every row of this item
    whose tag id is in the dictionary with a non-empty label. *)
Definition resolvable (tm : gmap Z string) (j : JoinRow.t) : option string :=
  match tm !! JoinRow.tags_id j with
  | Some s => if Boolean s then Some s else None
  | None => None
  end.

Fixpoint resolved_labels (tm : gmap Z string) (item_id : Z)
    (joins : list JoinRow.t) : list string :=
  match joins with
  | [] => []
  | j :: rest =>
      if decide (JoinRow.items_id j = item_id) then
        match resolvable tm j with
        | Some s => s :: resolved_labels tm item_id rest
        | None => resolved_labels tm item_id rest
        end
      else resolved_labels tm item_id rest
  end.
End Aggregator.

Definition fetchEventsWithTags :=
  @fetchWithTags event_fields "Error fetching events with tags:".
Definition fetchArticlesWithTags :=
  @fetchWithTags unit "Error fetching articles with tags:".

(** ** The built-in [Date]

    Time values are milliseconds since 1970-01-01T00:00:00Z; [None] stands
    for NaN, the time value of an invalid date.  The functions follow the
    abstract operations of ECMAScript (Day, TimeWithinDay, MakeDay, MakeTime,
    MakeDate, TimeClip, YearFromTime, ...). *)
Module Date.
Definition msPerSecond : Z := 1000.
Definition msPerMinute : Z := 60000.
Definition msPerHour : Z := 3600000.
Definition msPerDay : Z := 86400000.

Definition Day (t : Z) : Z := t / msPerDay.
Definition TimeWithinDay (t : Z) : Z := t mod msPerDay.

Definition IsLeapYear (y : Z) : bool :=
  (y mod 4 =? 0) && (negb (y mod 100 =? 0) || (y mod 400 =? 0)).

Definition DayFromYear (y : Z) : Z :=
  365 * (y - 1970) + (y - 1969) / 4 - (y - 1901) / 100 + (y - 1601) / 400.

Definition DaysInMonth (y m : Z) : Z :=
  if m =? 2 then (if IsLeapYear y then 29 else 28)
  else if (m =? 4) || (m =? 6) || (m =? 9) || (m =? 11) then 30
  else 31.

(** Days of the year before the first day of month [m] (1 to 12). *)
Fixpoint DaysBeforeMonth_nat (y : Z) (m : nat) : Z :=
  match m with
  | O => 0
  | S k => DaysBeforeMonth_nat y k + DaysInMonth y (Z.of_nat (S k))
  end.
Definition DaysBeforeMonth (y m : Z) : Z :=
  DaysBeforeMonth_nat y (Z.to_nat (m - 1)).

(** Day number of the calendar date [y]-[m]-[d], month and day from 1. *)
Definition MakeDay (y m d : Z) : Z :=
  DayFromYear y + DaysBeforeMonth y m + (d - 1).
Definition MakeTime (h mi s ms : Z) : Z :=
  h * msPerHour + mi * msPerMinute + s * msPerSecond + ms.
Definition MakeDate (day time : Z) : Z := day * msPerDay + time.

Definition TimeClip (t : Z) : option Z :=
  if Z.abs t <=? 8640000000000000 then Some t else None.

(** The year of a day number: the largest [y] with [DayFromYear y <= day].
    The estimate [1970 + day / 366] (for days from 1970 on) or
    [1970 + day / 365] (before) is never too large and at most a few years
    too small over the range of time values, so a bounded search upwards
    finds it. *)
Fixpoint year_search (fuel : nat) (y day : Z) : Z :=
  match fuel with
  | O => y
  | S k => if DayFromYear (y + 1) <=? day then year_search k (y + 1) day else y
  end.
Definition YearFromDay (day : Z) : Z :=
  year_search 800 (1970 + (if 0 <=? day then day / 366 else day / 365 - 1)) day.
Definition YearFromTime (t : Z) : Z := YearFromDay (Day t).

Definition DayWithinYear (t : Z) : Z := Day t - DayFromYear (YearFromTime t).

Fixpoint month_search (fuel : nat) (y m dayInYear : Z) : Z * Z :=
  match fuel with
  | O => (m, dayInYear + 1)
  | S k =>
      if dayInYear <? DaysInMonth y m then (m, dayInYear + 1)
      else month_search k y (m + 1) (dayInYear - DaysInMonth y m)
  end.
(** Month (1 to 12) and day of the month (from 1) of a time value. *)
Definition MonthFromTime (t : Z) : Z :=
  fst (month_search 11 (YearFromTime t) 1 (DayWithinYear t)).
Definition DateFromTime (t : Z) : Z :=
  snd (month_search 11 (YearFromTime t) 1 (DayWithinYear t)).
Definition HourFromTime (t : Z) : Z := (t / msPerHour) mod 24.
Definition MinFromTime (t : Z) : Z := (t / msPerMinute) mod 60.
Definition SecFromTime (t : Z) : Z := (t / msPerSecond) mod 60.
Definition msFromTime (t : Z) : Z := t mod msPerSecond.

(** *** Decimal digits *)

Definition is_digit (c : ascii) : bool :=
  let n := Z.of_N (N_of_ascii c) in (48 <=? n) && (n <=? 57).
Definition digit_value (c : ascii) : Z := Z.of_N (N_of_ascii c) - 48.
Definition digit_char (d : Z) : ascii := ascii_of_N (Z.to_N (48 + d)).

(** Reads exactly [n] decimal digits. *)
Fixpoint digits (n : nat) (acc : Z) (s : string) : option (Z * string) :=
  match n with
  | O => Some (acc, s)
  | S k =>
      match s with
      | String c rest =>
          if is_digit c then digits k (10 * acc + digit_value c) rest else None
      | EmptyString => None
      end
  end.

(** [z] written with exactly [n] decimal digits (zero padded). *)
Fixpoint pad (n : nat) (z : Z) (suffix : string) : string :=
  match n with
  | O => suffix
  | S k => pad k (z / 10) (String (digit_char (z mod 10)) suffix)
  end.

(** *** [Date.parse] on the ECMAScript date-time string format

    [YYYY], [YYYY-MM] or [YYYY-MM-DD], optionally followed by [THH:mm],
    [THH:mm:ss] or [THH:mm:ss.sss] and by an offset [Z], [+HH:mm] or
    [-HH:mm].  A date-only form is UTC; a date-time form without offset is
    local time, which is where [LocalTZA] (the offset of local time from
    UTC, in milliseconds, at a given local time value) comes in.  ECMAScript
    leaves every other string to the implementation; the embedding reads
    them as NaN. *)

Definition expect (c : ascii) (s : string) : option string :=
  match s with
  | String c' rest => if Ascii.eqb c c' then Some rest else None
  | EmptyString => None
  end.

(** [-MM] and [-DD], each optional (the day only after a month). *)
Definition parse_month_day (s : string) : option (Z * Z * string) :=
  match expect "-" s with
  | None => Some (1, 1, s)
  | Some s1 =>
      '(m, s2) ← digits 2 0 s1;
      match expect "-" s2 with
      | None => Some (m, 1, s2)
      | Some s3 => '(d, s4) ← digits 2 0 s3; Some (m, d, s4)
      end
  end.

(** [:ss] and [.sss], each optional (the fraction only after seconds). *)
Definition parse_seconds (s : string) : option (Z * Z * string) :=
  match expect ":" s with
  | None => Some (0, 0, s)
  | Some s1 =>
      '(sec, s2) ← digits 2 0 s1;
      match expect "." s2 with
      | None => Some (sec, 0, s2)
      | Some s3 => '(ms, s4) ← digits 3 0 s3; Some (sec, ms, s4)
      end
  end.

(** The offset: [Some off] in milliseconds, or [None] for local time. *)
Definition parse_offset (s : string) : option (option Z) :=
  match s with
  | EmptyString => Some None
  | String "Z" EmptyString => Some (Some 0)
  | String sign rest =>
      if Ascii.eqb sign "+" || Ascii.eqb sign "-" then
        '(h, s1) ← digits 2 0 rest;
        s2 ← expect ":" s1;
        '(mi, s3) ← digits 2 0 s2;
        match s3 with
        | EmptyString =>
            if (h <=? 23) && (mi <=? 59) then
              let off := h * msPerHour + mi * msPerMinute in
              Some (Some (if Ascii.eqb sign "+" then off else - off))
            else None
        | String _ _ => None
        end
      else None
  end.

Definition valid_date (y m d : Z) : bool :=
  (1 <=? m) && (m <=? 12) && (1 <=? d) && (d <=? DaysInMonth y m).
Definition valid_time (h mi sec ms : Z) : bool :=
  ((h <=? 23) && (mi <=? 59) && (sec <=? 59))
  || ((h =? 24) && (mi =? 0) && (sec =? 0) && (ms =? 0)).

Definition parse (LocalTZA : Z → Z) (s : string) : option Z :=
  '(y, s1) ← digits 4 0 s;
  '(m, d, s2) ← parse_month_day s1;
  if negb (valid_date y m d) then None else
  match s2 with
  | EmptyString => TimeClip (MakeDate (MakeDay y m d) 0)
  | String "T" s3 =>
      '(h, s4) ← digits 2 0 s3;
      s5 ← expect ":" s4;
      '(mi, s6) ← digits 2 0 s5;
      '(sec, ms, s7) ← parse_seconds s6;
      off ← parse_offset s7;
      if negb (valid_time h mi sec ms) then None else
      let t := MakeDate (MakeDay y m d) (MakeTime h mi sec ms) in
      match off with
      | Some o => TimeClip (t - o)
      | None => TimeClip (t - LocalTZA t)
      end
  | String _ _ => None
  end.

(** [Date.prototype.toISOString]: [YYYY-MM-DDTHH:mm:ss.sssZ], with an
    expanded six-digit signed year outside 0..9999.  An invalid date has no
    ISO string: the method throws a RangeError. *)
Definition year_string (y : Z) (suffix : string) : string :=
  if (0 <=? y) && (y <=? 9999) then pad 4 y suffix
  else String (if 0 <=? y then "+"%char else "-"%char) (pad 6 (Z.abs y) suffix).

Definition toISOString (tv : option Z) : completion string :=
  match tv with
  | None => Throw "RangeError: Invalid time value"
  | Some t =>
      let ms := String "." (pad 3 (msFromTime t) "Z") in
      let sec := String ":" (pad 2 (SecFromTime t) ms) in
      let mi := String ":" (pad 2 (MinFromTime t) sec) in
      let h := String "T" (pad 2 (HourFromTime t) mi) in
      let d := String "-" (pad 2 (DateFromTime t) h) in
      let m := String "-" (pad 2 (MonthFromTime t) d) in
      Return (year_string (YearFromTime t) m)
  end.
End Date.


(** ** Strings: the regular expression of [formatDate] and URL encoding *)

(** [s.replace(/-|:|\.\d+/g, '')]: deletes every hyphen, every colon and
    every full stop that is followed by digits, together with those digits.
    [in_fraction] is set while the digits after a deleted full stop are being
    consumed. *)
Fixpoint strip_separators (in_fraction : bool) (s : string) : string :=
  match s with
  | EmptyString => EmptyString
  | String c rest =>
      if in_fraction && Date.is_digit c then strip_separators true rest
      else if Ascii.eqb c "-" || Ascii.eqb c ":" then
        strip_separators false rest
      else if Ascii.eqb c "." then
        match rest with
        | String d _ =>
            if Date.is_digit d then strip_separators true rest
            else String c (strip_separators false rest)
        | EmptyString => String c EmptyString
        end
      else String c (strip_separators false rest)
  end.

Module URLSearchParams.
Definition hex_digit (n : N) : ascii :=
  ascii_of_N (if (n <? 10)%N then 48 + n else 55 + n)%N.

Definition hex_value (c : ascii) : option N :=
  let n := N_of_ascii c in
  if ((48 <=? n) && (n <=? 57))%N then Some (n - 48)%N
  else if ((65 <=? n) && (n <=? 70))%N then Some (n - 55)%N
  else if ((97 <=? n) && (n <=? 102))%N then Some (n - 87)%N
  else None.

(** Bytes the application/x-www-form-urlencoded serializer leaves as they
    are: ASCII letters and digits and [*], [-], [.], [_]. *)
Definition unreserved (c : ascii) : bool :=
  let n := N_of_ascii c in
  (((48 <=? n) && (n <=? 57)) || ((65 <=? n) && (n <=? 90))
   || ((97 <=? n) && (n <=? 122))
   || (n =? 42) || (n =? 45) || (n =? 46) || (n =? 95))%N.

(** Serialization of one name or value (a string of UTF-8 bytes): a space
    becomes [+], any other reserved byte [%XX]. *)
Fixpoint encode (s : string) : string :=
  match s with
  | EmptyString => EmptyString
  | String c rest =>
      if unreserved c then String c (encode rest)
      else if Ascii.eqb c " " then String "+" (encode rest)
      else
        let n := N_of_ascii c in
        String "%" (String (hex_digit (n / 16)) (String (hex_digit (n mod 16))
          (encode rest)))
  end.

(** [params.toString()]: [name=value] pairs joined by [&], in the order
    of the properties of the initializer. *)
Fixpoint toString (params : list (string * string)) : string :=
  match params with
  | [] => EmptyString
  | [(k, v)] => encode k +:+ "=" +:+ encode v
  | (k, v) :: rest => encode k +:+ "=" +:+ encode v +:+ "&" +:+ toString rest
  end.

(** The parser of the same format, used to read a parameter back from a
    generated URL. *)
Fixpoint decode (s : string) : string :=
  match s with
  | EmptyString => EmptyString
  | String c rest =>
      if Ascii.eqb c "+" then String " " (decode rest)
      else if Ascii.eqb c "%" then
        match rest with
        | String h (String l rest') =>
            match hex_value h, hex_value l with
            | Some a, Some b => String (ascii_of_N (16 * a + b)) (decode rest')
            | _, _ => String c (decode rest)
            end
        | _ => String c (decode rest)
        end
      else String c (decode rest)
  end.

(** Splits at every occurrence of [sep]. *)
Fixpoint split (sep : ascii) (s : string) : list string :=
  match s with
  | EmptyString => [EmptyString]
  | String c rest =>
      if Ascii.eqb c sep then EmptyString :: split sep rest
      else
        match split sep rest with
        | piece :: pieces => String c piece :: pieces
        | [] => [String c EmptyString]
        end
  end.

(** Splits at the first occurrence of [sep]. *)
Fixpoint split_first (sep : ascii) (s : string) : string * string :=
  match s with
  | EmptyString => (EmptyString, EmptyString)
  | String c rest =>
      if Ascii.eqb c sep then (EmptyString, rest)
      else let '(a, b) := split_first sep rest in (String c a, b)
  end.

Definition parse (query : string) : list (string * string) :=
  (λ piece, let '(k, v) := split_first "=" piece in (decode k, decode v))
    <$> filter (λ piece, piece ≠ EmptyString) (split "&" query).

(** [new URL(url).searchParams.get(name)]: the first value of [name] in the
    query of [url] (the part after the first [?]). *)
Definition get (name : string) (url : string) : option string :=
  (λ found, snd (snd found))
    <$> list_find (λ kv, fst kv = name) (parse (snd (split_first "?" url))).
End URLSearchParams.

(** ** Calendar-link generator ([generateGoogleCalendarUrl]) *)

Section Calendar.
Variable LocalTZA : Z → Z.

(** [new Date(s)] for a string [s]; the result is the date's time value. *)
Definition new_Date (s : string) : option Z := Date.parse LocalTZA s.

(** [date.toISOString().replace(/-|:|\.\d+/g, '')] *)
Definition formatDate (date : option Z) : completion string :=
  match Date.toISOString date with
  | Return iso => Return (strip_separators false iso)
  | Throw e => Throw e
  end.

(** The object passed to [new URLSearchParams], property by property. *)
Definition calendar_params (p : post event_fields) (dates : string)
    : list (string * string) :=
  [ ("action", "TEMPLATE");
    ("text", title p);
    ("details", title p +:+ " - Learn more at our website.");
    ("location", location (variant p));
    ("dates", dates) ].

(** The generator reads the post and nothing else; an unparseable [time]
    or [end_time] makes [toISOString] throw, and the exception leaves the
    function. *)
Definition generateGoogleCalendarUrl (p : post event_fields)
    : completion string :=
  let startDateTime := new_Date (time (variant p)) in
  let endDateTime := new_Date (end_time (variant p)) in
  match formatDate startDateTime with
  | Throw e => Throw e
  | Return start =>
      match formatDate endDateTime with
      | Throw e => Throw e
      | Return end_ =>
          Return
            ("https://calendar.google.com/calendar/render?"
             +:+ URLSearchParams.toString
                   (calendar_params p (start +:+ "/" +:+ end_)))
      end
  end.
End Calendar.


(** ** Arrays *)

(** [l.slice(start, end)]: a negative index counts from the end of the
    array, and both indices are clamped to the array. *)
Definition Array_slice {A : Type} (l : list A) (start end_ : Z) : list A :=
  let len := Z.of_nat (length l) in
  let k := if start <? 0 then Z.max (len + start) 0 else Z.min start len in
  let final := if end_ <? 0 then Z.max (len + end_) 0 else Z.min end_ len in
  take (Z.to_nat (Z.max (final - k) 0)) (drop (Z.to_nat k) l).

(** [l.includes(x)] and [l.some(f)]. *)
Definition includes (l : list string) (x : string) : bool :=
  existsb (String.eqb x) l.
Definition some {A : Type} (f : A → bool) (l : list A) : bool := existsb f l.

Section Sort.
Context {A : Type}.
(** The comparator returns a number or NaN ([None]); the sort reads NaN
    as [+0]. *)
Variable comparefn : A → A → option Z.

Definition SortCompare (x y : A) : Z := default 0 (comparefn x y).

(** [x] goes after the elements it compares strictly greater than. *)
Fixpoint sort_insert (x : A) (l : list A) : list A :=
  match l with
  | [] => [x]
  | y :: rest =>
      if 0 <? SortCompare x y then y :: sort_insert x rest else x :: l
  end.

(** [l.sort(comparefn)].  ECMAScript requires the sort to be stable; for a
    comparator that is a consistent ordering this fixes the result, which
    the embedding computes by insertion from the right.  For a comparator
    that is not (here: when a timestamp is NaN) ECMAScript leaves the order
    to the implementation. *)
Definition Array_sort (l : list A) : list A := foldr sort_insert [] l.

(** On the elements of [l] the comparator is the difference of the
    integer key [key]. *)
Definition keyed (key : A → Z) (l : list A) : Prop :=
  ∀ x y, x ∈ l → y ∈ l → comparefn x y = Some (key x - key y).
End Sort.

(** [Math.ceil(n / d)] for integers [n] and [d > 0].  The quotient of a
    length by 12 is either an integer or at least 1/12 away from one, so the
    rounding of the floating-point division does not change the ceiling. *)
Definition Math_ceil_div (n d : Z) : Z := - ((- n) / d).

(** ** Listing controller (components [Events] and [Articles]) *)

Definition POSTS_PER_PAGE : Z := 12.

Inductive sort_order := newest | oldest.

(** [window.scrollTo({ top: 0, behavior: 'smooth' })] *)
Inductive request := scrollTo_top_smooth.

(** The [useState] cells of the component. *)
Record state (V : Type) := mkState {
  selectedTags : list string;
  sortOrder : sort_order;
  isTagDropdownOpen : bool;
  filteredPosts : list (post V);
  currentPage : Z;
  totalPages : Z;
  displayedPosts : list (post V);
  blogPosts : list (post V)
}.
Arguments mkState {V}.
Arguments selectedTags {V}.
Arguments sortOrder {V}.
Arguments isTagDropdownOpen {V}.
Arguments filteredPosts {V}.
Arguments currentPage {V}.
Arguments totalPages {V}.
Arguments displayedPosts {V}.
Arguments blogPosts {V}.

(** What the user and the loader can do to the component. *)
Inductive action (V : Type) :=
| Loaded (data : list (post V))
| ToggleTag (tag : string)
| ClearTags
| ToggleSortOrder
| GoToPage (page : Z)
| ToggleTagDropdown.
Arguments Loaded {V}.
Arguments ToggleTag {V}.
Arguments ClearTags {V}.
Arguments ToggleSortOrder {V}.
Arguments GoToPage {V}.
Arguments ToggleTagDropdown {V}.

Section Controller.
Context {V : Type}.
Variable LocalTZA : Z → Z.
#[local] Abbreviation state := (state V).

(** *** State setters *)

Definition setSelectedTags (v : list string) (s : state) : state :=
  mkState v (sortOrder s) (isTagDropdownOpen s) (filteredPosts s)
    (currentPage s) (totalPages s) (displayedPosts s) (blogPosts s).
Definition setSortOrder (v : sort_order) (s : state) : state :=
  mkState (selectedTags s) v (isTagDropdownOpen s) (filteredPosts s)
    (currentPage s) (totalPages s) (displayedPosts s) (blogPosts s).
Definition setIsTagDropdownOpen (v : bool) (s : state) : state :=
  mkState (selectedTags s) (sortOrder s) v (filteredPosts s)
    (currentPage s) (totalPages s) (displayedPosts s) (blogPosts s).
Definition setFilteredPosts (v : list (post V)) (s : state) : state :=
  mkState (selectedTags s) (sortOrder s) (isTagDropdownOpen s) v
    (currentPage s) (totalPages s) (displayedPosts s) (blogPosts s).
Definition setCurrentPage (v : Z) (s : state) : state :=
  mkState (selectedTags s) (sortOrder s) (isTagDropdownOpen s)
    (filteredPosts s) v (totalPages s) (displayedPosts s) (blogPosts s).
Definition setTotalPages (v : Z) (s : state) : state :=
  mkState (selectedTags s) (sortOrder s) (isTagDropdownOpen s)
    (filteredPosts s) (currentPage s) v (displayedPosts s) (blogPosts s).
Definition setDisplayedPosts (v : list (post V)) (s : state) : state :=
  mkState (selectedTags s) (sortOrder s) (isTagDropdownOpen s)
    (filteredPosts s) (currentPage s) (totalPages s) v (blogPosts s).
Definition setBlogPost (v : list (post V)) (s : state) : state :=
  mkState (selectedTags s) (sortOrder s) (isTagDropdownOpen s)
    (filteredPosts s) (currentPage s) (totalPages s) (displayedPosts s) v.

(** The values of the [useState] calls at the first render. *)
Definition initial : state := mkState [] newest false [] 1 1 [] [].

(** *** The filter-and-sort effect *)

(** [new Date(p.date_created).getTime()] *)
Definition getTime (p : post V) : option Z :=
  Date.parse LocalTZA (date_created p).

(** [selectedTags.some((tag) => post.tags.includes(tag))] *)
Definition matches (selected : list string) (p : post V) : bool :=
  some (λ tag, includes (tags p) tag) selected.

(** [if (selectedTags.length > 0) result = result.filter(...)] *)
Definition filterByTags (selected : list string) (posts : list (post V))
    : list (post V) :=
  if 0 <? Z.of_nat (length selected)
  then List.filter (matches selected) posts
  else posts.

(** [sortOrder === 'newest' ? dateB - dateA : dateA - dateB]; a difference
    with a NaN operand is NaN.  Time values are integers of magnitude at
    most 8.64e15, so the floating-point difference has the sign of the
    exact one. *)
Definition compareDates (order : sort_order) (a b : post V) : option Z :=
  dateA ← getTime a;
  dateB ← getTime b;
  Some (match order with
        | newest => dateB - dateA
        | oldest => dateA - dateB
        end).

(** The effect with dependencies [blogPosts, selectedTags, sortOrder].
    [result] starts as a copy of [blogPosts] and [filter] builds a new
    array, so the in-place [sort] never reorders [blogPosts] itself. *)
Definition filterEffect (s : state) : state :=
  let result := filterByTags (selectedTags s) (blogPosts s) in
  let result := Array_sort (compareDates (sortOrder s)) result in
  setCurrentPage 1
    (setTotalPages (Math_ceil_div (Z.of_nat (length result)) POSTS_PER_PAGE)
      (setFilteredPosts result s)).

(** *** The pagination effect *)

(** The effect with dependencies [currentPage, filteredPosts]. *)
Definition sliceEffect (s : state) : state :=
  let startIndex := (currentPage s - 1) * POSTS_PER_PAGE in
  let endIndex := startIndex + POSTS_PER_PAGE in
  setDisplayedPosts (Array_slice (filteredPosts s) startIndex endIndex) s.

(** *** Event handlers: the new state and the requests to the browser *)

Definition toggleTag (tag : string) (s : state) : state * list request :=
  if includes (selectedTags s) tag
  then (setSelectedTags
          (List.filter (λ t, negb (String.eqb t tag)) (selectedTags s)) s, [])
  else (setSelectedTags (selectedTags s ++ [tag]) s, []).

Definition clearTags (s : state) : state * list request :=
  (setSelectedTags [] s, []).

Definition toggleSortOrder (s : state) : state * list request :=
  (setSortOrder (match sortOrder s with
                 | newest => oldest
                 | oldest => newest
                 end) s, []).

Definition goToPage (page : Z) (s : state) : state * list request :=
  if (1 <=? page) && (page <=? totalPages s)
  then (setCurrentPage page s, [scrollTo_top_smooth])
  else (s, []).

(** [loadEvents] / [loadArticles] once the aggregator has answered with
    [data]; the field-by-field copy in [data.map(...)] is the identity on
    [post]. *)
Definition loaded (data : list (post V)) (s : state) : state * list request :=
  (setBlogPost data s, []).

Definition handle (a : action V) (s : state) : state * list request :=
  match a with
  | Loaded data => loaded data s
  | ToggleTag tag => toggleTag tag s
  | ClearTags => clearTags s
  | ToggleSortOrder => toggleSortOrder s
  | GoToPage page => goToPage page s
  | ToggleTagDropdown => (setIsTagDropdownOpen (negb (isTagDropdownOpen s)) s, [])
  end.

(** *** Rendering

    After a handler has run, React renders again and runs the effects one
    of whose dependencies changed, until nothing changes.  Dependencies are
    compared with [Object.is]: an array is changed whenever it was set (the
    handlers and effects always build a new array), a number or string
    when its value differs.  So a write to [blogPosts], [selectedTags] or
    [sortOrder] runs the filter effect, whose write to [filteredPosts] then
    runs the pagination effect in the next render; a change of
    [currentPage] alone runs only the pagination effect. *)
Definition settle (a : action V) (before after : state) : state :=
  match a with
  | Loaded _ | ToggleTag _ | ClearTags | ToggleSortOrder =>
      sliceEffect (filterEffect after)
  | GoToPage _ =>
      if currentPage before =? currentPage after then after
      else sliceEffect after
  | ToggleTagDropdown => after
  end.

Definition step (a : action V) (s : state) : state * list request :=
  let '(s', requests) := handle a s in (settle a s s', requests).

(** On mount every effect runs once on the initial values, and the write
    to [filteredPosts] runs the pagination effect again. *)
Definition mounted : state :=
  sliceEffect (filterEffect (sliceEffect initial)).

Fixpoint run (actions : list (action V)) (s : state) : state :=
  match actions with
  | [] => s
  | a :: rest => run rest (fst (step a s))
  end.

(** The states the component can be in between two user events. *)
Inductive reachable : state → Prop :=
| reachable_mounted : reachable mounted
| reachable_step a s : reachable s → reachable (fst (step a s)).

(** The window of the specification: the elements of [posts] at the
    indices from [(page - 1) * 12] (included) to [page * 12] (excluded). *)
Definition page_window (posts : list (post V)) (page : Z) : list (post V) :=
  take 12 (drop (Z.to_nat ((page - 1) * 12)) posts).

(** The pagination state agrees with the filtered list: what holds in
    every state the component rests in. *)
Definition consistent (s : state) : Prop :=
  1 ≤ currentPage s
  ∧ totalPages s
    = Math_ceil_div (Z.of_nat (length (filteredPosts s))) POSTS_PER_PAGE
  ∧ displayedPosts s
    = Array_slice (filteredPosts s) ((currentPage s - 1) * POSTS_PER_PAGE)
        ((currentPage s - 1) * POSTS_PER_PAGE + POSTS_PER_PAGE).

(** [a] is not later than [b], both with a parseable [date_created]. *)
Definition date_le (a b : post V) : Prop :=
  ∃ ta tb, getTime a = Some ta ∧ getTime b = Some tb ∧ ta ≤ tb.
End Controller.


(** ** Distinct tags of the listing ([allTags]) *)

(** [set.add(x)]: a value already in the set keeps its place. *)
Definition Set_add (set : list string) (x : string) : list string :=
  if includes set x then set else set ++ [x].

(** [Array.from(new Set(l))]: the values of [l] in the order of their first
    occurrence. *)
Definition new_Set (l : list string) : list string := foldl Set_add [] l.

(** The comparator of [sort()] without argument: strings are compared unit
    by unit, a proper prefix coming first. *)
Definition default_compare (x y : string) : option Z :=
  Some (match String.compare x y with
        | Lt => -1
        | Eq => 0
        | Gt => 1
        end).


(** [Array.from(new Set(blogPosts.flatMap((post) => post.tags))).sort()] *)
Definition allTags {V : Type} (blogPosts : list (post V)) : list string :=
  Array_sort default_compare (new_Set (blogPosts ≫= tags)).

(** ** Loading the listing ([loadEvents], [loadArticles]) *)

(** [try { const data = await fetch...WithTags(); setBlogPost(data.map(...)) }
    catch (err) { console.error(msg, err) }]: the action the component
    receives, if any, and the console output.  [msg] is
    ['Error fetching news:'] on the events page and
    ['Error fetching articles:'] on the articles page. *)
Definition loadPosts {V : Type} (msg : string)
    (answer : promise (list (post V))) : option (action V) * list log_entry :=
  match await answer with
  | Some (Return data) => (Some (Loaded data), [])
  | Some (Throw err) => (None, [console_error msg err])
  | None => (None, [])
  end.

Definition loadEvents := @loadPosts event_fields "Error fetching news:".
Definition loadArticles := @loadPosts unit "Error fetching articles:".

(** ** Strings of the pages *)

(** [l.join(sep)] *)
Fixpoint Array_join (sep : string) (l : list string) : string :=
  match l with
  | [] => EmptyString
  | [x] => x
  | x :: rest => x +:+ sep +:+ Array_join sep rest
  end.

(** [s.split(c)] for a separator of one character. *)
Definition String_split (c : ascii) (s : string) : list string :=
  URLSearchParams.split c s.

(** The [src] of a post image:
    [`${process.env.VAR}/assets/${image}` || '/placeholder.svg'], where an
    unset variable reads as [undefined] in the template. *)
Definition imageSrc (env : option string) (image : string) : string :=
  let url := default "undefined" env +:+ "/assets/" +:+ image in
  if Boolean url then url else "/placeholder.svg".

(** ** Detail page (component [SinglePost] of an event or an article) *)

(** Variant fields of an event on its detail page. *)
Record detail_fields := mkDetail {
  content : string;
  short_description : string;
  detail_time : string;
  detail_location : string;
  fee : string;
  detail_end_time : string
}.

Module SinglePost.
Section Resolver.
Context {V : Type}.

(** The value [notFound()] throws. *)
Variable NEXT_NOT_FOUND : string.

(** The [useState] cells: [postData], [loading] and [error]. *)
Record state := mkState {
  postData : option (post V);
  loading : bool;
  error : option string
}.

Definition initial : state := mkState None true None.

Definition setPostData (v : post V) (s : state) : state :=
  mkState (Some v) (loading s) (error s).
Definition setLoading (v : bool) (s : state) : state :=
  mkState (postData s) v (error s).
Definition setError (v : string) (s : state) : state :=
  mkState (postData s) (loading s) (Some v).

(** The [try] block of [fetchData], after the [await]: the first item, or
    the exception of [notFound()] when there is none. *)
Definition first_or_notFound (events : list (post V)) (s : state)
    : completion state :=
  match events with
  | [] => Throw NEXT_NOT_FOUND
  | first :: _ => Return (setPostData first s)
  end.

(** [fetchData]: [try { ... } catch (err) { console.error(...); setError(...) }
    finally { setLoading(false) }].  When the [await] never resumes nothing
    runs, not even the [finally]. *)
Definition fetchData (answer : promise (list (post V))) (s : state)
    : state * list log_entry :=
  match await answer with
  | None => (s, [])
  | Some awaited =>
      let tried :=
        match awaited with
        | Return events => first_or_notFound events s
        | Throw err => Throw err
        end in
      match tried with
      | Return s' => (setLoading false s', [])
      | Throw err =>
          (setLoading false (setError "Failed to load post data." s),
           [console_error "Error fetching post data:" err])
      end
  end.

(** What the component renders. *)
Inductive view :=
| Loading
| Error (msg : string)
| NotFound
| Post (p : post V).

(** [if (loading) ...; if (error) ...; if (!postData) notFound(); ...] *)
Definition render (s : state) : view :=
  if loading s then Loading
  else
    match error s with
    | Some msg => if Boolean msg then Error msg else
        match postData s with
        | None => NotFound
        | Some p => Post p
        end
    | None =>
        match postData s with
        | None => NotFound
        | Some p => Post p
        end
    end.
End Resolver.

Section Event.
Variable LocalTZA : Z → Z.

(** The generator of the detail page: no [details] parameter. *)
Definition calendar_params (p : post detail_fields) (dates : string)
    : list (string * string) :=
  [ ("action", "TEMPLATE");
    ("text", title p);
    ("location", detail_location (variant p));
    ("dates", dates) ].

Definition generateGoogleCalendarUrl (p : post detail_fields)
    : completion string :=
  let startDate := new_Date LocalTZA (detail_time (variant p)) in
  let endDate := new_Date LocalTZA (detail_end_time (variant p)) in
  match formatDate startDate with
  | Throw e => Throw e
  | Return start =>
      match formatDate endDate with
      | Throw e => Throw e
      | Return end_ =>
          Return
            ("https://calendar.google.com/calendar/render?"
             +:+ URLSearchParams.toString
                   (calendar_params p (start +:+ "/" +:+ end_)))
      end
  end.
End Event.

(** [time.split('T')[0].split('-').join('/')] *)
Definition showDate (time : string) : string :=
  Array_join "/" (String_split "-" (default "" (String_split "T" time !! 0%nat))).

(** [time.split('T')[1].split(':').slice(0, 2).join(':')]; without a [T] in
    [time] the index reads [undefined], whose [split] is a TypeError. *)
Definition showTime (time : string) : completion string :=
  match String_split "T" time !! 1%nat with
  | None => Throw "TypeError: Cannot read properties of undefined"
  | Some clock => Return (Array_join ":" (Array_slice (String_split ":" clock) 0 2))
  end.
End SinglePost.

(** The listing's view of an event of the detail page. *)
Definition listed (p : post detail_fields) : post event_fields :=
  mkPost (id p) (slug p) (title p) (image p) (date_created p) (tags p)
    (mkEvent (detail_time (variant p)) (detail_location (variant p))
       (detail_end_time (variant p))).


(** [s.includes(c)] for one character. *)
Fixpoint occurs (c : ascii) (s : string) : bool :=
  match s with
  | EmptyString => false
  | String c' rest => Ascii.eqb c c' || occurs c rest
  end.


(** [s] with every [from] replaced by [to]. *)
Fixpoint replaceAll (from to : ascii) (s : string) : string :=
  match s with
  | EmptyString => EmptyString
  | String c rest =>
      String (if Ascii.eqb c from then to else c) (replaceAll from to rest)
  end.


(* ================================================================== *)
(** * Part II. Theorems *)
(* ================================================================== *)

(** ** The tag dictionary *)

Lemma tagMap_snoc tags t :
  tagMap (tags ++ [t]) = <[Tag.id t := Tag.tag t]> (tagMap tags).
Proof. unfold tagMap. by rewrite foldl_app. Qed.

(** Every value stored in the dictionary is the label of some tag row. *)
Lemma tagMap_lookup_Some tags k s :
  tagMap tags !! k = Some s →
  ∃ t, t ∈ tags ∧ Tag.id t = k ∧ Tag.tag t = s.
Proof.
  induction tags as [|t tags IH] using rev_ind.
  - unfold tagMap; simpl. by rewrite lookup_empty.
  - rewrite tagMap_snoc. intros H.
    destruct (decide (Tag.id t = k)) as [Heq|Hne].
    + rewrite Heq, lookup_insert_eq in H. injection H as <-.
      exists t. split; [|done]. apply elem_of_app. right. by left.
    + rewrite lookup_insert_ne in H by done.
      destruct (IH H) as (t' & Hin & Hid & Htag).
      exists t'. split; [|done]. apply elem_of_app. by left.
Qed.

(** A key is absent from the dictionary exactly when no tag row has this
    id. *)
Lemma tagMap_lookup_None tags k :
  tagMap tags !! k = None ↔ ∀ t, t ∈ tags → Tag.id t ≠ k.
Proof.
  induction tags as [|t tags IH] using rev_ind.
  - unfold tagMap; simpl. rewrite lookup_empty. split; [|done].
    intros _ t Ht. by apply not_elem_of_nil in Ht.
  - rewrite tagMap_snoc. destruct (decide (Tag.id t = k)) as [Heq|Hne].
    + rewrite Heq, lookup_insert_eq. split; [done|].
      intros H. exfalso. apply (H t); [|done].
      apply elem_of_app. right. by left.
    + rewrite lookup_insert_ne by done. rewrite IH. split.
      * intros H t' [Ht'|Ht']%elem_of_app; [by apply H|].
        apply list_elem_of_singleton in Ht'. by subst.
      * intros H t' Ht'. apply H, elem_of_app. by left.
Qed.

(** Last write wins on duplicate ids. *)
Lemma tagMap_last_wins tags t later :
  (∀ t', t' ∈ later → Tag.id t' ≠ Tag.id t) →
  tagMap (tags ++ t :: later) !! Tag.id t = Some (Tag.tag t).
Proof.
  induction later as [|u later IH] using rev_ind; intros H.
  - rewrite tagMap_snoc. apply lookup_insert_eq.
  - replace (tags ++ t :: later ++ [u]) with ((tags ++ t :: later) ++ [u])
      by (by rewrite <- app_assoc).
    rewrite tagMap_snoc, lookup_insert_ne.
    + apply IH. intros t' Ht'. apply H, elem_of_app. by left.
    + apply H, elem_of_app. right. by left.
Qed.

(** ** The join *)

Section AggregatorFacts.
Context {V : Type}.
Implicit Types (items : list (Item.t V)) (joins : list JoinRow.t)
  (dict : list Tag.t) (tm : gmap Z string).

Lemma Boolean_true_iff (s : string) : Boolean s = true ↔ s ≠ "".
Proof. destruct s; simpl; split; congruence. Qed.

Lemma or_empty_resolvable tm j :
  or_empty (tm !! JoinRow.tags_id j) = default "" (resolvable tm j).
Proof.
  unfold or_empty, resolvable.
  destruct (tm !! JoinRow.tags_id j) as [s|]; [|done]. by destruct (Boolean s).
Qed.

Lemma resolvable_Some tm j s :
  resolvable tm j = Some s → tm !! JoinRow.tags_id j = Some s ∧ s ≠ "".
Proof.
  unfold resolvable. destruct (tm !! JoinRow.tags_id j) as [s'|]; [|done].
  destruct (Boolean s') eqn:E; [|done]. intros [= <-].
  split; [done|]. by apply Boolean_true_iff.
Qed.

(** The code's filter-map-filter chain computes the specification's list. *)
Lemma withTags_resolved joins tm (item : Item.t V) :
  tags (withTags joins tm item) = resolved_labels tm (Item.id item) joins.
Proof.
  unfold withTags, relatedTags; simpl.
  induction joins as [|j joins IH]; [done|].
  rewrite filter_cons; simpl. case_decide; [|done].
  rewrite fmap_cons, filter_cons, IH, or_empty_resolvable.
  destruct (resolvable tm j) as [s|] eqn:E; simpl.
  - apply resolvable_Some in E as [_ Hs]. apply Boolean_true_iff in Hs.
    rewrite decide_True by done. done.
  - done.
Qed.

Lemma resolved_labels_app tm i joins1 joins2 :
  resolved_labels tm i (joins1 ++ joins2)
  = resolved_labels tm i joins1 ++ resolved_labels tm i joins2.
Proof.
  induction joins1 as [|j joins1 IH]; [done|]. simpl.
  case_decide; [|done]. destruct (resolvable tm j); [|done].
  by rewrite IH.
Qed.

Lemma resolved_labels_elem tm i joins l :
  l ∈ resolved_labels tm i joins →
  ∃ j, j ∈ joins ∧ JoinRow.items_id j = i
       ∧ tm !! JoinRow.tags_id j = Some l ∧ l ≠ "".
Proof.
  induction joins as [|j joins IH]; simpl.
  - by intros ?%not_elem_of_nil.
  - assert (l ∈ resolved_labels tm i joins →
            ∃ j0, j0 ∈ j :: joins ∧ JoinRow.items_id j0 = i
                  ∧ tm !! JoinRow.tags_id j0 = Some l ∧ l ≠ "") as Hrest.
    { intros (j0 & ? & ?)%IH. exists j0. split; [by right | done]. }
    case_decide as Hid; [|done].
    destruct (resolvable tm j) as [s|] eqn:E; [|done].
    intros [->|Hin]%elem_of_cons; [|by apply Hrest].
    apply resolvable_Some in E as [? ?].
    exists j. split; [by left | done].
Qed.

(** A join row that does not resolve contributes nothing, wherever it
    stands among the join rows. *)
Lemma resolved_labels_drop tm i joins1 j joins2 :
  tm !! JoinRow.tags_id j = None ∨ tm !! JoinRow.tags_id j = Some "" →
  resolved_labels tm i (joins1 ++ j :: joins2)
  = resolved_labels tm i (joins1 ++ joins2).
Proof.
  intros Hj. rewrite !resolved_labels_app. f_equal. simpl.
  case_decide; [|done].
  unfold resolvable. by destruct Hj as [-> | ->].
Qed.

Lemma length_aggregate items joins dict :
  length (aggregate items joins dict) = length items.
Proof. unfold aggregate. apply length_fmap. Qed.

Lemma aggregate_lookup items joins dict (n : nat) :
  aggregate items joins dict !! n
  = withTags joins (tagMap dict) <$> items !! n.
Proof. unfold aggregate. apply list_lookup_fmap. Qed.

Lemma Promise_all_total {A B C : Type}
    (p : promise A) (q : promise B) (r : promise C) :
  Promise_all p q r (Promise_all_in_order p q r).
Proof. destruct p, q, r; simpl; by constructor. Qed.

Lemma Promise_all_rejected {A B C : Type}
    (p : promise A) (q : promise B) (r : promise C) s :
  Promise_all p q r s →
  (∃ e, p = Rejected e) ∨ (∃ e, q = Rejected e) ∨ (∃ e, r = Rejected e) →
  ∃ e, s = Rejected e ∧ (p = Rejected e ∨ q = Rejected e ∨ r = Rejected e).
Proof.
  intros Hall Hrej. destruct Hall as [a b c|e q r|p e r|p q e|p q r Hnone _].
  - destruct Hrej as [[? ?] | [[? ?] | [? ?]]]; discriminate.
  - eauto.
  - eauto.
  - eauto 6.
  - destruct Hrej as [[? ->] | [[? ->] | [? ->]]]; simpl in Hnone;
      rewrite ?orb_true_r in Hnone; discriminate.
Qed.
End AggregatorFacts.

(** C3. Every tag of every item the aggregator produces is a non-empty label
    of some row of the tag dictionary; the tag list of an item is exactly the
    list of labels its join rows resolve to, in join-row order; a join row
    whose tag id is absent from the dictionary, or resolves to the empty
    label, can be removed without changing the result; and such rows raise
    nothing: with three successful fetches the aggregator is fulfilled with
    the join and writes nothing to the console. *)
Theorem aggregate_tags_from_dictionary {V : Type}
    (items : list (Item.t V)) (joins : list JoinRow.t) (dict : list Tag.t) :
  (∀ p l, p ∈ aggregate items joins dict → l ∈ tags p →
      l ≠ "" ∧ ∃ t, t ∈ dict ∧ Tag.tag t = l)
  ∧ tags <$> aggregate items joins dict
    = (λ item, resolved_labels (tagMap dict) (Item.id item) joins) <$> items
  ∧ (∀ joins1 j joins2, joins = joins1 ++ j :: joins2 →
      (∀ t, t ∈ dict → Tag.id t ≠ JoinRow.tags_id j)
      ∨ tagMap dict !! JoinRow.tags_id j = Some "" →
      aggregate items joins dict = aggregate items (joins1 ++ joins2) dict)
  ∧ (∀ msg out,
      fetchWithTags msg (Fulfilled items) (Fulfilled joins) (Fulfilled dict) out
      ↔ out = (Fulfilled (aggregate items joins dict), [])).
Proof.
  split; [|split; [|split]].
  - intros p l Hp Hl. apply list_elem_of_fmap in Hp as (item & -> & _).
    rewrite withTags_resolved in Hl.
    apply resolved_labels_elem in Hl as (j & _ & _ & Hlook & Hne).
    split; [done|].
    apply tagMap_lookup_Some in Hlook as (t & Ht & _ & Htag). eauto.
  - unfold aggregate. rewrite <- list_fmap_compose.
    apply list_fmap_ext. intros _ item _. simpl. apply withTags_resolved.
  - intros joins1 j joins2 -> Hj. rewrite <- tagMap_lookup_None in Hj.
    unfold aggregate. apply list_fmap_ext. intros _ item _.
    pose proof (withTags_resolved (joins1 ++ j :: joins2) (tagMap dict) item) as H1.
    pose proof (withTags_resolved (joins1 ++ joins2) (tagMap dict) item) as H2.
    rewrite resolved_labels_drop in H1 by done. rewrite <- H2 in H1.
    unfold withTags in *. simpl in *. by rewrite H1.
  - intros msg out. unfold fetchWithTags. split.
    + intros (fetched & Hall & ->). by inversion Hall.
    + intros ->. eexists. split; [constructor | done].
Qed.

(** C4. The aggregator's output has exactly as many items as the primary
    collection, whatever the join rows and the tag dictionary are, and the
    n-th output item is the n-th primary item with its tags attached. *)
Theorem aggregate_cardinality {V : Type}
    (items : list (Item.t V)) (joins : list JoinRow.t) (dict : list Tag.t) :
  length (aggregate items joins dict) = length items
  ∧ length (aggregate items [] dict) = length items
  ∧ length (aggregate items joins []) = length items
  ∧ id <$> aggregate items joins dict = Item.id <$> items.
Proof.
  rewrite !length_aggregate. repeat split.
  unfold aggregate. rewrite <- list_fmap_compose. by apply list_fmap_ext.
Qed.

(** C5. If any of the three fetches is rejected, whatever becomes of the
    other two, the aggregator still returns: every run yields a promise
    fulfilled with the empty collection, never a rejected or pending one, and
    exactly one [console.error] line carrying the aggregator's message and
    the reason of a failed fetch. *)
Theorem fetchWithTags_failure {V : Type} (msg : string)
    (p : promise (list (Item.t V))) (q : promise (list JoinRow.t))
    (r : promise (list Tag.t)) :
  (∃ e, p = Rejected e) ∨ (∃ e, q = Rejected e) ∨ (∃ e, r = Rejected e) →
  (∃ out, fetchWithTags msg p q r out)
  ∧ ∀ out, fetchWithTags msg p q r out →
      ∃ e, out = (Fulfilled [], [console_error msg e])
           ∧ (p = Rejected e ∨ q = Rejected e ∨ r = Rejected e).
Proof.
  intros Hrej. split.
  - eexists. exists (Promise_all_in_order p q r).
    split; [apply Promise_all_total | reflexivity].
  - intros out (fetched & Hall & ->).
    destruct (Promise_all_rejected _ _ _ _ Hall Hrej) as (e & -> & He).
    exists e. by split.
Qed.

Lemma fetchWithTags_failure_witness :
  let p := Fulfilled [Item.mk 1 "fair" "Fair" "a.png" "2024-01-01"
                        (mkEvent "2024-07-01T10:00:00Z" "Park"
                                 "2024-07-01T12:00:00Z")] in
  let q : promise (list JoinRow.t) := Rejected "503" in
  let r : promise (list Tag.t) := Pending in
  (∃ out, fetchEventsWithTags p q r out)
  ∧ ∀ out, fetchEventsWithTags p q r out →
      ∃ e, out = (Fulfilled [],
                  [console_error "Error fetching events with tags:" e])
           ∧ (p = Rejected e ∨ q = Rejected e ∨ r = Rejected e).
Proof.
  intros p q r.
  apply (fetchWithTags_failure (V := event_fields)).
  right. left. by exists "503".
Defined.

(** ** Sorting *)

Section SortFacts.
Context {A : Type}.
Variable comparefn : A → A → option Z.

Lemma sort_insert_perm (x : A) (l : list A) :
  sort_insert comparefn x l ≡ₚ x :: l.
Proof.
  induction l as [|y l IH]; simpl; [done|].
  destruct (0 <? SortCompare comparefn x y); [|done].
  rewrite IH. apply Permutation_swap.
Qed.

Lemma Array_sort_perm (l : list A) : Array_sort comparefn l ≡ₚ l.
Proof.
  induction l as [|x l IH]; simpl; [done|].
  by rewrite sort_insert_perm, IH.
Qed.

Lemma Array_sort_elem (l : list A) (x : A) :
  x ∈ Array_sort comparefn l ↔ x ∈ l.
Proof. by rewrite Array_sort_perm. Qed.

Lemma length_Array_sort (l : list A) :
  length (Array_sort comparefn l) = length l.
Proof. by rewrite Array_sort_perm. Qed.

Variable key : A → Z.
#[local] Abbreviation keyed := (keyed comparefn key).

Lemma keyed_cons_inv x l : keyed (x :: l) → keyed l.
Proof. intros H a b Ha Hb. apply H; by right. Qed.

Lemma keyed_perm l l' : l ≡ₚ l' → keyed l → keyed l'.
Proof. intros Hp H a b Ha Hb. apply H; by rewrite Hp. Qed.

Lemma sort_insert_sorted (x : A) (l : list A) :
  keyed (x :: l) →
  StronglySorted (λ a b, key a ≤ key b) l →
  StronglySorted (λ a b, key a ≤ key b) (sort_insert comparefn x l).
Proof.
  induction l as [|y l IH]; intros Hk Hs; simpl.
  - repeat constructor.
  - unfold SortCompare. rewrite (Hk x y) by (rewrite !elem_of_cons; auto).
    simpl. apply StronglySorted_inv in Hs as [Hs Hy].
    destruct (0 <? key x - key y) eqn:E.
    + apply Z.ltb_lt in E. constructor.
      * apply IH; [|done]. eapply keyed_perm; [|apply (keyed_cons_inv y)].
        -- reflexivity.
        -- eapply keyed_perm; [apply Permutation_swap | done].
      * rewrite sort_insert_perm. constructor; [lia | done].
    + apply Z.ltb_ge in E. constructor.
      * by constructor.
      * constructor; [lia|].
        eapply Forall_impl; [exact Hy|]. simpl. intros; lia.
Qed.

Lemma Array_sort_sorted (l : list A) :
  keyed l → StronglySorted (λ a b, key a ≤ key b) (Array_sort comparefn l).
Proof.
  induction l as [|x l IH]; intros Hk; simpl; [constructor|].
  apply sort_insert_sorted.
  - eapply keyed_perm; [|exact Hk]. by rewrite Array_sort_perm.
  - apply IH. by apply keyed_cons_inv in Hk.
Qed.

(** Stability: elements with the same key keep their relative order. *)
Lemma sort_insert_stable (v : Z) (x : A) (l : list A) :
  keyed (x :: l) →
  filter (λ a, key a = v) (sort_insert comparefn x l)
  = filter (λ a, key a = v) (x :: l).
Proof.
  induction l as [|y l IH]; intros Hk; simpl; [done|].
  unfold SortCompare. rewrite (Hk x y) by (rewrite !elem_of_cons; auto).
  simpl. destruct (0 <? key x - key y) eqn:E; [|done].
  apply Z.ltb_lt in E.
  assert (keyed (x :: l)) as Hk'.
  { eapply (keyed_cons_inv y), keyed_perm; [apply Permutation_swap | done]. }
  rewrite (filter_cons _ y), IH by done. rewrite !filter_cons.
  repeat case_decide; try done; lia.
Qed.

Lemma Array_sort_stable (v : Z) (l : list A) :
  keyed l →
  filter (λ a, key a = v) (Array_sort comparefn l)
  = filter (λ a, key a = v) l.
Proof.
  induction l as [|x l IH]; intros Hk; simpl; [done|].
  rewrite sort_insert_stable.
  - rewrite !filter_cons, IH; [done|]. by apply keyed_cons_inv in Hk.
  - eapply keyed_perm; [|exact Hk]. by rewrite Array_sort_perm.
Qed.
End SortFacts.

(** ** Slices and pages *)

Section SliceFacts.
Context {A : Type}.
Implicit Types (l : list A).

(** From a non-negative start, [slice(a, a + n)] is [n] elements from
    index [a], as many as there are. *)
Lemma Array_slice_window l (a n : Z) :
  0 ≤ a → 0 ≤ n →
  Array_slice l a (a + n) = take (Z.to_nat n) (drop (Z.to_nat a) l).
Proof.
  intros Ha Hn. unfold Array_slice.
  rewrite (proj2 (Z.ltb_ge a 0)), (proj2 (Z.ltb_ge (a + n) 0)) by lia.
  destruct (decide (a ≤ Z.of_nat (length l))) as [Hle|Hgt].
  - rewrite (Z.min_l a) by lia.
    destruct (decide (a + n ≤ Z.of_nat (length l))).
    + f_equal. lia.
    + rewrite !take_ge; [done | |]; rewrite length_drop; lia.
  - rewrite !drop_ge by lia. by rewrite !take_nil.
Qed.

Lemma lookup_take_drop l (a n i : nat) :
  take n (drop a l) !! i = if decide (i < n)%nat then l !! (a + i)%nat else None.
Proof.
  case_decide.
  - by rewrite lookup_take_lt, lookup_drop.
  - rewrite lookup_take_ge; [done | lia].
Qed.

(** Consecutive windows of [n] elements concatenate to a prefix. *)
Lemma windows_concat l (n k : nat) :
  mjoin ((λ i, take n (drop (i * n) l)) <$> seq 0 k) = take (k * n) l.
Proof.
  induction k as [|k IH]; [by rewrite take_0|].
  rewrite seq_S, fmap_app, join_app, IH. simpl.
  rewrite app_nil_r, take_take_drop. f_equal. lia.
Qed.
End SliceFacts.

Lemma Math_ceil_div_bounds (n d : Z) :
  0 < d → d * (Math_ceil_div n d - 1) < n ≤ d * Math_ceil_div n d.
Proof.
  intros Hd. unfold Math_ceil_div.
  pose proof (Z.mul_div_le (- n) d Hd).
  pose proof (Z.mul_succ_div_gt (- n) d Hd). lia.
Qed.

Lemma Math_ceil_div_unique (n d k : Z) :
  0 < d → d * (k - 1) < n ≤ d * k → Math_ceil_div n d = k.
Proof.
  intros Hd Hk. pose proof (Math_ceil_div_bounds n d Hd). nia.
Qed.

(** ** The listing controller *)

Section ControllerFacts.
Context {V : Type}.
Variable LocalTZA : Z → Z.
Implicit Types (s : state V) (p : post V) (posts : list (post V)).

Lemma includes_true (l : list string) (x : string) :
  includes l x = true ↔ x ∈ l.
Proof.
  unfold includes. rewrite existsb_exists. split.
  - intros (y & Hy & ->%String.eqb_eq). by apply list_elem_of_In.
  - intros Hx. exists x. split; [by apply list_elem_of_In|].
    apply String.eqb_refl.
Qed.

Lemma matches_true (selected : list string) p :
  matches selected p = true ↔ ∃ tag, tag ∈ selected ∧ tag ∈ tags p.
Proof.
  unfold matches, some. rewrite existsb_exists. split.
  - intros (tag & Hin & Hinc). exists tag.
    split; [by apply list_elem_of_In | by apply includes_true].
  - intros (tag & Hin & Hinc). exists tag.
    split; [by apply list_elem_of_In | by apply includes_true].
Qed.

Lemma filterByTags_elem (selected : list string) posts p :
  p ∈ filterByTags selected posts
  ↔ p ∈ posts ∧ (selected = [] ∨ ∃ tag, tag ∈ selected ∧ tag ∈ tags p).
Proof.
  unfold filterByTags. destruct selected as [|t selected].
  - simpl. split; [auto | by intros [? _]].
  - replace (0 <? Z.of_nat (length (t :: selected))) with true
      by (symmetry; apply Z.ltb_lt; simpl; lia).
    rewrite list_elem_of_In, filter_In, <- list_elem_of_In, matches_true.
    split; [intros [? ?]; auto | intros [? [?|?]]; done].
Qed.

Lemma filterByTags_sublist (selected : list string) posts :
  filterByTags selected posts `sublist_of` posts.
Proof.
  unfold filterByTags. destruct (0 <? _); [|done].
  induction posts as [|p posts IH]; simpl; [done|].
  destruct (matches selected p); by constructor.
Qed.

Lemma filteredPosts_filterEffect s :
  filteredPosts (filterEffect LocalTZA s)
  = Array_sort (compareDates LocalTZA (sortOrder s))
      (filterByTags (selectedTags s) (blogPosts s)).
Proof. done. Qed.

Lemma totalPages_filterEffect s :
  totalPages (filterEffect LocalTZA s)
  = Math_ceil_div
      (Z.of_nat (length (filteredPosts (filterEffect LocalTZA s))))
      POSTS_PER_PAGE.
Proof. done. Qed.

(** What a step leaves alone. *)
Lemma sliceEffect_frame s :
  let s' := sliceEffect s in
  selectedTags s' = selectedTags s ∧ sortOrder s' = sortOrder s
  ∧ isTagDropdownOpen s' = isTagDropdownOpen s
  ∧ filteredPosts s' = filteredPosts s ∧ currentPage s' = currentPage s
  ∧ totalPages s' = totalPages s ∧ blogPosts s' = blogPosts s.
Proof. done. Qed.

Lemma filterEffect_frame s :
  let s' := filterEffect LocalTZA s in
  selectedTags s' = selectedTags s ∧ sortOrder s' = sortOrder s
  ∧ isTagDropdownOpen s' = isTagDropdownOpen s
  ∧ displayedPosts s' = displayedPosts s ∧ blogPosts s' = blogPosts s.
Proof. done. Qed.

Lemma setCurrentPage_same s : setCurrentPage (currentPage s) s = s.
Proof. by destruct s. Qed.
End ControllerFacts.

Section Reachability.
Context {V : Type}.
Variable LocalTZA : Z → Z.
Implicit Types (s : state V) (p : post V) (posts : list (post V)).

Lemma consistent_refilter s : consistent (sliceEffect (filterEffect LocalTZA s)).
Proof. unfold consistent. simpl. split; [lia | done]. Qed.

Lemma consistent_sliceEffect s :
  1 ≤ currentPage s →
  totalPages s
    = Math_ceil_div (Z.of_nat (length (filteredPosts s))) POSTS_PER_PAGE →
  consistent (sliceEffect s).
Proof. intros H1 H2. unfold consistent. simpl. done. Qed.

Lemma consistent_step a s :
  consistent s → consistent (fst (step LocalTZA a s)).
Proof.
  intros (Hpage & Htotal & Hshown).
  destruct a as [data|tag| | |page| ]; unfold step; simpl;
    try apply consistent_refilter.
  - unfold toggleTag. destruct (includes (selectedTags s) tag); simpl;
      apply consistent_refilter.
  - unfold goToPage.
    destruct ((1 <=? page) && (page <=? totalPages s)) eqn:E; simpl.
    + apply andb_true_iff in E as [E1%Z.leb_le E2%Z.leb_le].
      destruct (currentPage s =? page) eqn:E'.
      * apply Z.eqb_eq in E'. subst page. by rewrite setCurrentPage_same.
      * by apply consistent_sliceEffect.
    + rewrite Z.eqb_refl. done.
  - done.
Qed.

Lemma reachable_consistent s : reachable LocalTZA s → consistent s.
Proof.
  induction 1 as [|a s _ IH].
  - apply consistent_refilter.
  - by apply consistent_step.
Qed.

Lemma reachable_run actions s :
  reachable LocalTZA s → reachable LocalTZA (run LocalTZA actions s).
Proof.
  revert s. induction actions as [|a actions IH]; intros s Hs; simpl; [done|].
  apply IH. by constructor.
Qed.

(** A page shown for a page number from 1 is the window of the
    specification. *)
Lemma Array_slice_page posts (page : Z) :
  1 ≤ page →
  Array_slice posts ((page - 1) * POSTS_PER_PAGE)
    ((page - 1) * POSTS_PER_PAGE + POSTS_PER_PAGE)
  = page_window posts page.
Proof.
  intros Hpage. unfold POSTS_PER_PAGE, page_window.
  rewrite Array_slice_window by lia. done.
Qed.

Lemma pages_cover posts :
  mjoin ((λ k : nat, page_window posts (Z.of_nat k + 1))
           <$> seq 0 (Z.to_nat (Math_ceil_div (Z.of_nat (length posts))
                                   POSTS_PER_PAGE)))
  = posts.
Proof.
  pose proof (Math_ceil_div_bounds (Z.of_nat (length posts)) POSTS_PER_PAGE
                eq_refl) as [_ Hup].
  unfold POSTS_PER_PAGE in *.
  set (n := Math_ceil_div (Z.of_nat (length posts)) 12) in *.
  transitivity (mjoin ((λ i : nat, take 12 (drop (i * 12) posts))
                         <$> seq 0 (Z.to_nat n))).
  - f_equal. apply list_fmap_ext. intros _ k _. unfold page_window.
    do 2 f_equal. lia.
  - rewrite windows_concat. apply take_ge. lia.
Qed.
End Reachability.

(** C1 (as amended). After the listing controller recomputes the view,
    [totalPages] is the ceiling of [filteredCount / 12]: the least number of
    pages of 12 that hold the filtered collection.  It is 0 when the filtered
    collection is empty and [max(1, ceil(filteredCount / 12))], hence at
    least 1, whenever it is not. *)
Theorem totalPages_is_ceiling {V : Type} (LocalTZA : Z → Z) (s : state V) :
  let recomputed := filterEffect LocalTZA s in
  let filteredCount := Z.of_nat (length (filteredPosts recomputed)) in
  totalPages recomputed = Math_ceil_div filteredCount POSTS_PER_PAGE
  ∧ 12 * (totalPages recomputed - 1) < filteredCount ≤ 12 * totalPages recomputed
  ∧ (filteredCount = 0 → totalPages recomputed = 0)
  ∧ (0 < filteredCount →
     1 ≤ totalPages recomputed
     ∧ totalPages recomputed
       = Z.max 1 (Math_ceil_div filteredCount POSTS_PER_PAGE)).
Proof.
  intros recomputed filteredCount.
  assert (totalPages recomputed = Math_ceil_div filteredCount POSTS_PER_PAGE)
    as Htotal by apply totalPages_filterEffect.
  pose proof (Math_ceil_div_bounds filteredCount POSTS_PER_PAGE eq_refl) as Hb.
  rewrite <- Htotal in *. unfold POSTS_PER_PAGE in Hb.
  repeat split; try lia.
Qed.

(** C1, the claim as stated fails: on the empty collection the recomputed
    [totalPages] is 0, not 1. *)
Lemma totalPages_empty_is_zero :
  let recomputed := filterEffect (λ _, 0) (@initial unit) in
  filteredPosts recomputed = []
  ∧ totalPages recomputed = 0
  ∧ totalPages recomputed
    ≠ Z.max 1 (Math_ceil_div (Z.of_nat (length (filteredPosts recomputed)))
                 POSTS_PER_PAGE)
  ∧ totalPages (@mounted unit (λ _, 0)) = 0.
Proof. vm_compute. repeat split; discriminate. Qed.

(** C7. After the filter effect, a post is in the filtered list exactly when
    it is in the collection and either no tag is selected or it carries at
    least one of the selected tags; the posts that pass keep their
    multiplicity, and the filter itself keeps their order. *)
Theorem tag_filter_semantics {V : Type} (LocalTZA : Z → Z)
    (s : state V) (p : post V) :
  (p ∈ filteredPosts (filterEffect LocalTZA s)
   ↔ p ∈ blogPosts s
     ∧ (selectedTags s = []
        ∨ ∃ tag, tag ∈ selectedTags s ∧ tag ∈ tags p))
  ∧ filteredPosts (filterEffect LocalTZA s)
    ≡ₚ filterByTags (selectedTags s) (blogPosts s)
  ∧ filterByTags (selectedTags s) (blogPosts s) `sublist_of` blogPosts s.
Proof.
  rewrite filteredPosts_filterEffect. split; [|split].
  - by rewrite Array_sort_elem, filterByTags_elem.
  - apply Array_sort_perm.
  - apply filterByTags_sublist.
Qed.

Lemma filter_ext_Forall {A : Type} (P Q : A → Prop)
    `{∀ x, Decision (P x)} `{∀ x, Decision (Q x)} (l : list A) :
  Forall (λ x, P x ↔ Q x) l → filter P l = filter Q l.
Proof.
  induction 1 as [|x l Hx _ IH]; [done|].
  rewrite !filter_cons, IH. repeat case_decide; tauto.
Qed.

Section DateOrder.
Context {V : Type}.
Variable LocalTZA : Z → Z.
Implicit Types (p : post V) (posts : list (post V)).

(** When every date parses, the comparator is the difference of the time
    values ([oldest]) or of their opposites ([newest]). *)
Lemma keyed_oldest posts :
  Forall (λ p, is_Some (getTime LocalTZA p)) posts →
  keyed (compareDates LocalTZA oldest)
    (λ p, default 0 (getTime LocalTZA p)) posts.
Proof.
  intros Hall x y Hx Hy. rewrite Forall_forall in Hall.
  destruct (Hall x Hx) as [tx Htx], (Hall y Hy) as [ty Hty].
  unfold compareDates. by rewrite Htx, Hty.
Qed.

Lemma keyed_newest posts :
  Forall (λ p, is_Some (getTime LocalTZA p)) posts →
  keyed (compareDates LocalTZA newest)
    (λ p, - default 0 (getTime LocalTZA p)) posts.
Proof.
  intros Hall x y Hx Hy. rewrite Forall_forall in Hall.
  destruct (Hall x Hx) as [tx Htx], (Hall y Hy) as [ty Hty].
  unfold compareDates. rewrite Htx, Hty. simpl. f_equal. lia.
Qed.

Lemma StronglySorted_elem_impl {A : Type} (R R' : A → A → Prop) (l : list A) :
  (∀ a b, a ∈ l → b ∈ l → R a b → R' a b) →
  StronglySorted R l → StronglySorted R' l.
Proof.
  induction l as [|x l IH]; intros Himp Hs; [constructor|].
  apply StronglySorted_inv in Hs as [Hs Hx]. constructor.
  - apply IH; [|done]. intros a b Ha Hb. apply Himp; by right.
  - rewrite Forall_forall in *. intros b Hb.
    apply Himp; [by left | by right | by apply Hx].
Qed.

Lemma sorted_by_date order posts :
  Forall (λ p, is_Some (getTime LocalTZA p)) posts →
  StronglySorted
    (λ a b, match order with
            | newest => date_le LocalTZA b a
            | oldest => date_le LocalTZA a b
            end)
    (Array_sort (compareDates LocalTZA order) posts).
Proof.
  intros Hall.
  assert (∀ a, a ∈ Array_sort (compareDates LocalTZA order) posts →
               is_Some (getTime LocalTZA a)) as Hsome.
  { intros a Ha%Array_sort_elem. rewrite Forall_forall in Hall. auto. }
  destruct order.
  - eapply StronglySorted_elem_impl;
      [|apply Array_sort_sorted, keyed_newest, Hall].
    simpl. intros a b [ta Hta]%Hsome [tb Htb]%Hsome Hle.
    exists tb, ta. rewrite Hta, Htb in *. simpl in Hle.
    repeat split; try done. lia.
  - eapply StronglySorted_elem_impl;
      [|apply Array_sort_sorted, keyed_oldest, Hall].
    simpl. intros a b [ta Hta]%Hsome [tb Htb]%Hsome Hle.
    exists ta, tb. rewrite Hta, Htb in *. simpl in Hle. done.
Qed.

Lemma stable_by_date order posts (t : Z) :
  Forall (λ p, is_Some (getTime LocalTZA p)) posts →
  filter (λ p, getTime LocalTZA p = Some t)
    (Array_sort (compareDates LocalTZA order) posts)
  = filter (λ p, getTime LocalTZA p = Some t) posts.
Proof.
  intros Hall.
  assert (∀ (sign : Z) l, sign ≠ 0 →
            Forall (λ p, is_Some (getTime LocalTZA p)) l →
            filter (λ p, sign * default 0 (getTime LocalTZA p) = sign * t) l
            = filter (λ p, getTime LocalTZA p = Some t) l) as Hfilter.
  { intros sign l Hsign Hl. apply filter_ext_Forall.
    eapply Forall_impl; [exact Hl|]. simpl. intros p [tp ->]. simpl.
    split; [intros; f_equal; nia | by intros [= ->]]. }
  rewrite <- (Hfilter (match order with newest => -1 | oldest => 1 end)).
  - rewrite <- (Hfilter (match order with newest => -1 | oldest => 1 end)
                  posts); [|by destruct order | done].
    destruct order.
    + pose proof (Array_sort_stable (compareDates LocalTZA newest)
                    (λ p, - default 0 (getTime LocalTZA p)) (-1 * t) posts
                    (keyed_newest posts Hall)) as Hst.
      etransitivity; [|etransitivity; [exact Hst|]];
        apply list_filter_iff; intros p; lia.
    + pose proof (Array_sort_stable (compareDates LocalTZA oldest)
                    (λ p, default 0 (getTime LocalTZA p)) (1 * t) posts
                    (keyed_oldest posts Hall)) as Hst.
      etransitivity; [|etransitivity; [exact Hst|]];
        apply list_filter_iff; intros p; lia.
  - by destruct order.
  - rewrite Forall_forall in *. intros p Hp%Array_sort_elem. auto.
Qed.
End DateOrder.

(** C8. The filter effect orders the filtered posts by their parsed
    [date_created] time values: whenever every date parses, the result is a
    permutation of the posts that pass the filter, sorted with later dates
    first under [newest] and earlier dates first under [oldest], posts with
    equal time values keeping their order.  Posts created on 2024-01-01,
    2024-06-01 and 2023-12-31 come out as 2024-06-01, 2024-01-01, 2023-12-31
    under [newest] and in the reverse order under [oldest]. *)
Theorem sort_by_date_created {V : Type} (LocalTZA : Z → Z) (s : state V) :
  (Forall (λ p, is_Some (getTime LocalTZA p)) (blogPosts s) →
   let sorted := filteredPosts (filterEffect LocalTZA s) in
   sorted ≡ₚ filterByTags (selectedTags s) (blogPosts s)
   ∧ StronglySorted
       (λ a b, match sortOrder s with
               | newest => date_le LocalTZA b a
               | oldest => date_le LocalTZA a b
               end) sorted
   ∧ ∀ t, filter (λ p, getTime LocalTZA p = Some t) sorted
          = filter (λ p, getTime LocalTZA p = Some t)
              (filterByTags (selectedTags s) (blogPosts s)))
  ∧ ∀ (i1 i2 i3 : Z) (v : V),
      let posts :=
        [ mkPost i1 "a" "A" "a.png" "2024-01-01" [] v;
          mkPost i2 "b" "B" "b.png" "2024-06-01" [] v;
          mkPost i3 "c" "C" "c.png" "2023-12-31" [] v ] in
      date_created
        <$> filteredPosts (run LocalTZA [Loaded posts] (mounted LocalTZA))
      = ["2024-06-01"; "2024-01-01"; "2023-12-31"]
      ∧ date_created
          <$> filteredPosts (run LocalTZA [Loaded posts; ToggleSortOrder]
                               (mounted LocalTZA))
        = ["2023-12-31"; "2024-01-01"; "2024-06-01"].
Proof.
  split.
  - intros Hall sorted. subst sorted. rewrite filteredPosts_filterEffect.
    assert (Forall (λ p, is_Some (getTime LocalTZA p))
              (filterByTags (selectedTags s) (blogPosts s))) as Hpass.
    { rewrite Forall_forall in *. intros p [Hp _]%filterByTags_elem. auto. }
    split; [apply Array_sort_perm|].
    split; [by apply sorted_by_date | intros t; by apply stable_by_date].
  - intros i1 i2 i3 v posts. subst posts. by vm_compute.
Qed.

Lemma sort_by_date_created_witness :
  let s : state unit :=
    setBlogPost [ mkPost 1 "a" "A" "a.png" "2024-01-01" [] tt;
                  mkPost 2 "b" "B" "b.png" "2024-06-01T08:30:00Z" [] tt ]
      initial in
  StronglySorted (λ a b, date_le (λ _, 0) b a)
    (filteredPosts (filterEffect (λ _, 0) s)).
Proof.
  intros s.
  refine (proj1 (proj2 (proj1 (sort_by_date_created (λ _, 0) s) _))).
  repeat constructor; by eexists.
Defined.

Section GoToPage.
Context {V : Type}.
Variable LocalTZA : Z → Z.
Implicit Types (s : state V).

Lemma goToPage_outside (page : Z) s :
  page < 1 ∨ totalPages s < page → goToPage page s = (s, []).
Proof.
  intros Hout. unfold goToPage.
  replace ((1 <=? page) && (page <=? totalPages s)) with false; [done|].
  symmetry. apply andb_false_iff. rewrite !Z.leb_gt. tauto.
Qed.

Lemma goToPage_inside (page : Z) s :
  1 ≤ page ≤ totalPages s →
  goToPage page s = (setCurrentPage page s, [scrollTo_top_smooth]).
Proof.
  intros [Hlo Hhi]. unfold goToPage.
  replace ((1 <=? page) && (page <=? totalPages s)) with true; [done|].
  symmetry. apply andb_true_iff. by rewrite !Z.leb_le.
Qed.

(** Rendering after a page change touches [displayedPosts] only. *)
Lemma step_goToPage_inside (page : Z) s :
  1 ≤ page ≤ totalPages s →
  ∃ shown,
    step LocalTZA (GoToPage page) s
    = (setDisplayedPosts shown (setCurrentPage page s), [scrollTo_top_smooth]).
Proof.
  intros Hpage. unfold step. simpl. rewrite goToPage_inside by done. simpl.
  destruct (currentPage s =? page).
  - exists (displayedPosts s). by destruct s.
  - eexists. reflexivity.
Qed.
End GoToPage.

(** C9. [goToPage(n)] with [n] outside [1, totalPages] changes nothing and
    requests nothing, also after rendering.  With [n] inside the range the
    handler sets [currentPage] to [n], leaves every other state cell as it
    is and requests one smooth scroll to the top; after rendering,
    [currentPage] is [n] and the selected tags, the sort order, the
    collection, the filtered list and [totalPages] are as before. *)
Theorem goToPage_frame {V : Type} (LocalTZA : Z → Z) (page : Z) (s : state V) :
  (page < 1 ∨ totalPages s < page →
   goToPage page s = (s, []) ∧ step LocalTZA (GoToPage page) s = (s, []))
  ∧ (1 ≤ page ≤ totalPages s →
     (let '(s', requests) := goToPage page s in
      requests = [scrollTo_top_smooth]
      ∧ currentPage s' = page
      ∧ selectedTags s' = selectedTags s ∧ sortOrder s' = sortOrder s
      ∧ isTagDropdownOpen s' = isTagDropdownOpen s
      ∧ filteredPosts s' = filteredPosts s ∧ totalPages s' = totalPages s
      ∧ displayedPosts s' = displayedPosts s ∧ blogPosts s' = blogPosts s)
     ∧ (let '(s', requests) := step LocalTZA (GoToPage page) s in
        requests = [scrollTo_top_smooth]
        ∧ currentPage s' = page
        ∧ selectedTags s' = selectedTags s ∧ sortOrder s' = sortOrder s
        ∧ isTagDropdownOpen s' = isTagDropdownOpen s
        ∧ filteredPosts s' = filteredPosts s ∧ totalPages s' = totalPages s
        ∧ blogPosts s' = blogPosts s)).
Proof.
  split.
  - intros Hout. unfold step. simpl. rewrite goToPage_outside by done.
    simpl. by rewrite Z.eqb_refl.
  - intros Hpage. rewrite goToPage_inside by done. split; [done|].
    destruct (step_goToPage_inside LocalTZA page s Hpage) as [shown ->]. done.
Qed.

Lemma goToPage_frame_witness :
  let posts := replicate 13 (mkPost 1 "a" "A" "a.png" "2024-01-01" [] tt) in
  let s := run (λ _, 0) [Loaded posts] (mounted (λ _, 0)) in
  goToPage 3 s = (s, []) ∧ step (λ _, 0) (GoToPage 3) s = (s, []).
Proof.
  intros posts s.
  refine (proj1 (goToPage_frame (λ _, 0) 3 s) _).
  right. vm_compute. reflexivity.
Defined.

Section Pages.
Context {V : Type}.
Variable LocalTZA : Z → Z.
Implicit Types (s : state V).

Lemma displayedPosts_window s :
  consistent s →
  displayedPosts s = page_window (filteredPosts s) (currentPage s).
Proof. intros (Hpage & _ & ->). by apply Array_slice_page. Qed.

(** The page shown after going to a page number in range. *)
Lemma goToPage_shows s (page : Z) :
  consistent s → 1 ≤ page ≤ totalPages s →
  displayedPosts (fst (step LocalTZA (GoToPage page) s))
  = page_window (filteredPosts s) page.
Proof.
  intros Hs Hpage.
  pose proof (consistent_step LocalTZA (GoToPage page) s Hs) as Hs'.
  apply displayedPosts_window in Hs'. rewrite Hs'.
  destruct (step_goToPage_inside LocalTZA page s Hpage) as [shown ->]. done.
Qed.

Lemma toggleTag_selectedTags (tag : string) s :
  selectedTags (fst (step LocalTZA (ToggleTag tag) s))
  = if includes (selectedTags s) tag
    then filter (λ t, t ≠ tag) (selectedTags s)
    else selectedTags s ++ [tag].
Proof.
  unfold step, handle, toggleTag.
  destruct (includes (selectedTags s) tag); simpl; [|done].
  induction (selectedTags s) as [|t l IH]; simpl; [done|].
  rewrite filter_cons, IH.
  destruct (String.eqb_spec t tag); simpl; by case_decide.
Qed.

Lemma filter_ne_id (tag : string) (l : list string) :
  tag ∉ l → filter (λ t, t ≠ tag) l = l.
Proof.
  induction l as [|t l IH]; [done|].
  rewrite not_elem_of_cons. intros [Hne Hl].
  rewrite filter_cons, decide_True by done. by rewrite IH.
Qed.

Lemma filter_ne_snoc (tag : string) (l : list string) :
  filter (λ t, t ≠ tag) (l ++ [tag]) = filter (λ t, t ≠ tag) l.
Proof.
  rewrite filter_app, filter_cons, decide_False by auto.
  by rewrite filter_nil, app_nil_r.
Qed.

Lemma filter_ne_perm (tag : string) (l : list string) :
  NoDup l → tag ∈ l → filter (λ t, t ≠ tag) l ++ [tag] ≡ₚ l.
Proof.
  induction l as [|t l IH]; intros Hnd Hin.
  - by apply elem_of_nil in Hin.
  - apply NoDup_cons in Hnd as [Ht Hnd]. rewrite filter_cons.
    destruct (decide (t = tag)) as [->|Hne].
    + rewrite decide_False by auto. rewrite filter_ne_id by done.
      symmetry. apply Permutation_cons_append.
    + rewrite decide_True by done. simpl. f_equiv. apply IH; [done|].
      apply elem_of_cons in Hin as [?|?]; [congruence | done].
Qed.
End Pages.

(** Below page 1, which the component never reaches, [slice] counts from the
    end of the array: page -1 of 24 posts would show the first twelve. *)
Lemma sliceEffect_below_first_page :
  let posts :=
    (λ k : nat, mkPost (Z.of_nat k) "a" "A" "a.png" "2024-01-01" [] tt)
      <$> seq 0 24 in
  id <$> displayedPosts
           (sliceEffect (setCurrentPage (-1) (setFilteredPosts posts initial)))
  = [0; 1; 2; 3; 4; 5; 6; 7; 8; 9; 10; 11].
Proof. by vm_compute. Qed.

(** C10. In every state the component rests in, the displayed posts are the
    contiguous window of the filtered-and-sorted list that starts at index
    [(currentPage - 1) * 12] and stops before index [currentPage * 12]:
    its i-th element, for i below 12, is element [(currentPage - 1) * 12 + i]
    of the filtered list.  A page has at most 12 posts, and going through the
    pages 1 to [totalPages] shows, in order, pieces whose concatenation is
    the filtered list. *)
Theorem displayed_page_is_window {V : Type} (LocalTZA : Z → Z) (s : state V) :
  reachable LocalTZA s →
  1 ≤ currentPage s
  ∧ displayedPosts s = page_window (filteredPosts s) (currentPage s)
  ∧ (∀ i : nat,
       displayedPosts s !! i
       = if decide (i < 12)%nat
         then filteredPosts s !! (Z.to_nat ((currentPage s - 1) * 12) + i)%nat
         else None)
  ∧ (length (displayedPosts s) ≤ 12)%nat
  ∧ mjoin ((λ k : nat,
              displayedPosts
                (fst (step LocalTZA (GoToPage (Z.of_nat k + 1)) s)))
             <$> seq 0 (Z.to_nat (totalPages s)))
    = filteredPosts s.
Proof.
  intros Hs%reachable_consistent.
  pose proof (displayedPosts_window s Hs) as Hshown.
  destruct Hs as (Hpage & Htotal & Hslice).
  split; [done|]. split; [done|]. rewrite Hshown. split; [|split].
  - intros i. unfold page_window. apply lookup_take_drop.
  - unfold page_window. rewrite length_take. lia.
  - etransitivity; [|apply pages_cover]. rewrite <- Htotal.
    f_equal. apply list_fmap_ext. intros i k [-> Hi]%lookup_seq.
    apply goToPage_shows; [done | lia].
Qed.

Lemma displayed_page_is_window_witness :
  let posts :=
    (λ k : nat, mkPost (Z.of_nat k) "a" "A" "a.png" "2024-01-01" [] tt)
      <$> seq 0 14 in
  let s := run (λ _, 0) [Loaded posts; GoToPage 2] (mounted (λ _, 0)) in
  id <$> displayedPosts s = [12; 13]
  ∧ displayedPosts s = page_window (filteredPosts s) (currentPage s).
Proof.
  intros posts s. split; [by vm_compute|].
  refine (proj1 (proj2 (displayed_page_is_window (λ _, 0) s _))).
  apply reachable_run. constructor.
Defined.

(** C2 (as amended). Toggling a tag twice leaves [selectedTags] with the
    same members.  When the tag was not selected the list is exactly as
    before; when it was selected, the list is the original without the tag
    followed by the tag, which is a rearrangement of the original when the
    original has no duplicate. *)
Theorem toggleTag_twice {V : Type} (LocalTZA : Z → Z)
    (tag : string) (s : state V) :
  let twice := run LocalTZA [ToggleTag tag; ToggleTag tag] s in
  (tag ∉ selectedTags s → selectedTags twice = selectedTags s)
  ∧ (tag ∈ selectedTags s →
     selectedTags twice = filter (λ t, t ≠ tag) (selectedTags s) ++ [tag])
  ∧ (∀ t, t ∈ selectedTags twice ↔ t ∈ selectedTags s)
  ∧ (NoDup (selectedTags s) → selectedTags twice ≡ₚ selectedTags s).
Proof.
  intros twice. subst twice. simpl.
  rewrite !toggleTag_selectedTags.
  destruct (includes (selectedTags s) tag) eqn:E.
  - apply includes_true in E.
    replace (includes (filter (λ t, t ≠ tag) (selectedTags s)) tag) with false.
    + split; [done|]. split; [done|]. split.
      * intros t. rewrite elem_of_app, list_elem_of_filter, list_elem_of_singleton.
        destruct (decide (t = tag)) as [->|]; tauto.
      * intros Hnd. by apply filter_ne_perm.
    + symmetry. apply not_true_iff_false. rewrite includes_true.
      rewrite list_elem_of_filter. tauto.
  - apply not_true_iff_false in E. rewrite includes_true in E.
    replace (includes (selectedTags s ++ [tag]) tag) with true.
    + rewrite filter_ne_snoc, filter_ne_id by done. done.
    + symmetry. apply includes_true, elem_of_app. right. by left.
Qed.

Lemma toggleTag_twice_witness :
  let s := run (λ _, 0) [ToggleTag "music"; ToggleTag "art"]
             (@mounted unit (λ _, 0)) in
  selectedTags (run (λ _, 0) [ToggleTag "music"; ToggleTag "music"] s)
  = filter (λ t, t ≠ "music") (selectedTags s) ++ ["music"].
Proof.
  intros s.
  refine (proj1 (proj2 (toggleTag_twice (λ _, 0) "music" s)) _).
  vm_compute. left.
Defined.

(** C2, the claim as stated fails: with "music" and "art" selected in this
    order, toggling "music" twice leaves "art" first. *)
Lemma toggleTag_twice_reorders :
  let s := run (λ _, 0) [ToggleTag "music"; ToggleTag "art"]
             (@mounted unit (λ _, 0)) in
  selectedTags s = ["music"; "art"]
  ∧ selectedTags (run (λ _, 0) [ToggleTag "music"; ToggleTag "music"] s)
    = ["art"; "music"]
  ∧ selectedTags (run (λ _, 0) [ToggleTag "music"; ToggleTag "music"] s)
    ≠ selectedTags s.
Proof. vm_compute. repeat split. discriminate. Qed.

(** C6. The calendar link is a function of the post's title, location,
    start and end alone.  For the event "Fair" at "Park" from
    2024-07-01T10:00:00Z to 2024-07-01T12:00:00Z, in any time zone, it
    returns the URL below, whose [dates] parameter reads
    20240701T100000Z/20240701T120000Z and whose [text] parameter reads
    Fair. *)
Theorem generateGoogleCalendarUrl_fair (LocalTZA : Z → Z) :
  (∀ (i : Z) (sl im created : string) (tg : list string),
     let fair :=
       mkPost i sl "Fair" im created tg
         (mkEvent "2024-07-01T10:00:00Z" "Park" "2024-07-01T12:00:00Z") in
     ∃ url, generateGoogleCalendarUrl LocalTZA fair = Return url
       ∧ url = "https://calendar.google.com/calendar/render?action=TEMPLATE&text=Fair&details=Fair+-+Learn+more+at+our+website.&location=Park&dates=20240701T100000Z%2F20240701T120000Z"
       ∧ URLSearchParams.get "dates" url
         = Some "20240701T100000Z/20240701T120000Z"
       ∧ URLSearchParams.get "text" url = Some "Fair")
  ∧ ∀ p q : post event_fields,
      title p = title q → variant p = variant q →
      generateGoogleCalendarUrl LocalTZA p
      = generateGoogleCalendarUrl LocalTZA q.
Proof.
  split.
  - intros i sl im created tg fair. subst fair.
    eexists. split; [by vm_compute|]. split; [done|]. by vm_compute.
  - intros p q Htitle Hvariant.
    unfold generateGoogleCalendarUrl, calendar_params.
    by rewrite Htitle, Hvariant.
Qed.

(** ** More on the listing controller *)

Section ControllerInvariants.
Context {V : Type}.
Variable LocalTZA : Z → Z.
Implicit Types (s : state V) (p : post V) (a : action V).

(** The actions that write [blogPosts], [selectedTags] or [sortOrder] end
    with the filter effect followed by the pagination effect. *)
Lemma step_refilter a s :
  (∀ page, a ≠ GoToPage page) → a ≠ ToggleTagDropdown →
  fst (step LocalTZA a s)
  = sliceEffect (filterEffect LocalTZA (fst (handle a s))).
Proof.
  intros Hpage Hdrop. unfold step.
  destruct a; try done; try (by destruct (handle _ s)).
  by edestruct Hpage.
Qed.

Lemma includes_false (l : list string) (x : string) :
  includes l x = false ↔ x ∉ l.
Proof. rewrite <- not_true_iff_false, includes_true. done. Qed.

Lemma List_filter_ne (tag : string) (l : list string) :
  List.filter (λ t, negb (String.eqb t tag)) l = filter (λ t, t ≠ tag) l.
Proof.
  induction l as [|t l IH]; simpl; [done|].
  rewrite filter_cons, IH.
  destruct (String.eqb_spec t tag); simpl; by case_decide.
Qed.

Lemma handle_toggleTag_selectedTags (tag : string) s :
  selectedTags (fst (toggleTag tag s))
  = if includes (selectedTags s) tag
    then filter (λ t, t ≠ tag) (selectedTags s)
    else selectedTags s ++ [tag].
Proof.
  unfold toggleTag. destruct (includes (selectedTags s) tag); simpl; [|done].
  apply List_filter_ne.
Qed.

Lemma handle_NoDup a s :
  NoDup (selectedTags s) → NoDup (selectedTags (fst (handle a s))).
Proof.
  intros Hnd.
  destruct a as [data|tag| | |page| ]; simpl;
    [done | | apply NoDup_nil_2 | done | | done].
  - rewrite handle_toggleTag_selectedTags.
    destruct (includes (selectedTags s) tag) eqn:E.
    + by apply NoDup_filter.
    + apply includes_false in E. apply NoDup_app. split; [done|].
      split; [|apply NoDup_singleton].
      intros x Hx ->%list_elem_of_singleton. done.
  - unfold goToPage. by destruct (_ && _).
Qed.

Lemma step_selectedTags a s :
  selectedTags (fst (step LocalTZA a s)) = selectedTags (fst (handle a s)).
Proof.
  unfold step. destruct (handle a s) as [s' requests] eqn:E. simpl.
  destruct a; simpl; try done.
  by destruct (currentPage s =? currentPage s').
Qed.

Lemma step_blogPosts a s :
  blogPosts (fst (step LocalTZA a s)) = blogPosts (fst (handle a s)).
Proof.
  unfold step. destruct (handle a s) as [s' requests] eqn:E. simpl.
  destruct a; simpl; try done.
  by destruct (currentPage s =? currentPage s').
Qed.

Lemma reachable_NoDup s : reachable LocalTZA s → NoDup (selectedTags s).
Proof.
  induction 1 as [|a s _ IH].
  - apply NoDup_nil_2.
  - rewrite step_selectedTags. by apply handle_NoDup.
Qed.

(** The filtered list is always the sorted filter of the collection. *)
Lemma reachable_in_sync s :
  reachable LocalTZA s →
  filteredPosts s
  = Array_sort (compareDates LocalTZA (sortOrder s))
      (filterByTags (selectedTags s) (blogPosts s)).
Proof.
  induction 1 as [|a s _ IH]; [done|].
  destruct a as [data|tag| | |page| ]; unfold step; simpl; try done.
  - unfold toggleTag. by destruct (includes (selectedTags s) tag).
  - unfold goToPage. destruct (_ && _); simpl.
    + by destruct (currentPage s =? page).
    + by rewrite Z.eqb_refl.
Qed.

Lemma Math_ceil_div_pos (n : Z) : 0 < n → 1 ≤ Math_ceil_div n POSTS_PER_PAGE.
Proof.
  intros Hn. pose proof (Math_ceil_div_bounds n POSTS_PER_PAGE eq_refl).
  unfold POSTS_PER_PAGE in *. lia.
Qed.

Lemma nonempty_length {A : Type} (l : list A) :
  l ≠ [] → 0 < Z.of_nat (length l).
Proof. destruct l; [done|]. simpl. lia. Qed.

(** With posts to show, the page number is within the pages. *)
Lemma reachable_page_in_range s :
  reachable LocalTZA s → filteredPosts s ≠ [] → currentPage s ≤ totalPages s.
Proof.
  induction 1 as [|a s Hs IH]; [done|].
  pose proof (reachable_consistent _ _ Hs) as (_ & Htotal & _).
  assert (∀ s0, filteredPosts (sliceEffect (filterEffect LocalTZA s0)) ≠ [] →
           currentPage (sliceEffect (filterEffect LocalTZA s0))
           ≤ totalPages (sliceEffect (filterEffect LocalTZA s0))) as Hre.
  { intros s0 Hne. simpl in *.
    by apply Math_ceil_div_pos, nonempty_length. }
  destruct a as [data|tag| | |page| ];
    [rewrite step_refilter by done; apply Hre ..
    | unfold step; simpl | exact IH].
  unfold goToPage. destruct ((1 <=? page) && (page <=? totalPages s)) eqn:E;
    simpl.
  - apply andb_true_iff in E as [_ E%Z.leb_le].
    by destruct (currentPage s =? page).
  - by rewrite Z.eqb_refl.
Qed.

Lemma page_window_sublist (posts : list (post V)) (page : Z) :
  page_window posts page `sublist_of` posts.
Proof.
  unfold page_window. etransitivity; [apply sublist_take | apply sublist_drop].
Qed.
End ControllerInvariants.

(** X3. The component never holds a selected tag twice, and one toggle
    flips the membership of exactly the toggled tag. *)
Theorem selectedTags_toggle {V : Type} (LocalTZA : Z → Z)
    (tag : string) (s : state V) :
  reachable LocalTZA s →
  NoDup (selectedTags s)
  ∧ NoDup (selectedTags (fst (step LocalTZA (ToggleTag tag) s)))
  ∧ (tag ∈ selectedTags (fst (step LocalTZA (ToggleTag tag) s))
     ↔ tag ∉ selectedTags s)
  ∧ ∀ other, other ≠ tag →
      (other ∈ selectedTags (fst (step LocalTZA (ToggleTag tag) s))
       ↔ other ∈ selectedTags s).
Proof.
  intros Hs. pose proof (reachable_NoDup _ _ Hs) as Hnd.
  split; [done|]. split.
  { apply (reachable_NoDup LocalTZA). by constructor. }
  rewrite (toggleTag_selectedTags LocalTZA tag s).
  destruct (includes (selectedTags s) tag) eqn:E.
  - apply includes_true in E. split.
    + rewrite list_elem_of_filter. tauto.
    + intros other Hne. rewrite list_elem_of_filter. tauto.
  - apply includes_false in E. split.
    + rewrite elem_of_app, list_elem_of_singleton. tauto.
    + intros other Hne. rewrite elem_of_app, list_elem_of_singleton. tauto.
Qed.

Lemma selectedTags_toggle_witness :
  let s := run (λ _, 0) [ToggleTag "music"; ToggleTag "art"]
             (@mounted unit (λ _, 0)) in
  NoDup (selectedTags (fst (step (λ _, 0) (ToggleTag "art") s))).
Proof.
  intros s.
  refine (proj1 (proj2 (selectedTags_toggle (λ _, 0) "art" s _))).
  apply reachable_run. constructor.
Defined.

(** X4. Whatever the user has done, every post on the displayed page is a
    post of the loaded collection, and when tags are selected it carries one
    of them. *)
Theorem displayed_posts_pass_filter {V : Type} (LocalTZA : Z → Z)
    (s : state V) (p : post V) :
  reachable LocalTZA s → p ∈ displayedPosts s →
  p ∈ filteredPosts s
  ∧ p ∈ blogPosts s
  ∧ (selectedTags s = [] ∨ ∃ tag, tag ∈ selectedTags s ∧ tag ∈ tags p).
Proof.
  intros Hs Hp.
  rewrite (displayedPosts_window s (reachable_consistent _ _ Hs)) in Hp.
  pose proof (elem_of_sublist _ _ _ Hp
                (page_window_sublist (filteredPosts s) (currentPage s))) as Hin.
  split; [done|].
  rewrite (reachable_in_sync _ _ Hs), Array_sort_elem in Hin.
  by apply filterByTags_elem in Hin.
Qed.

Lemma displayed_posts_pass_filter_witness :
  let music := mkPost 1 "a" "A" "a.png" "2024-01-01" ["music"] tt in
  let art := mkPost 2 "b" "B" "b.png" "2024-02-01" ["art"] tt in
  let s := run (λ _, 0) [Loaded [music; art]; ToggleTag "music"]
             (mounted (λ _, 0)) in
  music ∈ filteredPosts s
  ∧ music ∈ blogPosts s
  ∧ (selectedTags s = []
     ∨ ∃ tag, tag ∈ selectedTags s ∧ tag ∈ tags music).
Proof.
  intros music art s.
  apply (displayed_posts_pass_filter (λ _, 0) s music).
  - apply reachable_run. constructor.
  - vm_compute. left.
Defined.

(** X5. While there is something to show, the page number stays within
    [1, totalPages] and the displayed page is not empty. *)
Theorem page_in_range_when_nonempty {V : Type} (LocalTZA : Z → Z)
    (s : state V) :
  reachable LocalTZA s → filteredPosts s ≠ [] →
  1 ≤ currentPage s ≤ totalPages s ∧ displayedPosts s ≠ [].
Proof.
  intros Hs Hne.
  pose proof (reachable_page_in_range _ _ Hs Hne) as Hle.
  pose proof (reachable_consistent _ _ Hs) as Hc.
  pose proof (displayedPosts_window s Hc) as Hshown.
  destruct Hc as (Hpage & Htotal & _).
  split; [lia|]. intros Hempty. rewrite Hshown in Hempty.
  apply (f_equal length) in Hempty. unfold page_window in Hempty.
  rewrite length_take, length_drop in Hempty. cbn [length] in Hempty.
  pose proof (Math_ceil_div_bounds (Z.of_nat (length (filteredPosts s)))
                POSTS_PER_PAGE eq_refl) as [Hlow _].
  rewrite <- Htotal in Hlow. unfold POSTS_PER_PAGE in Hlow. lia.
Qed.

Lemma page_in_range_when_nonempty_witness :
  let posts := replicate 13 (mkPost 1 "a" "A" "a.png" "2024-01-01" [] tt) in
  let s := run (λ _, 0) [Loaded posts; GoToPage 2; GoToPage 3]
             (mounted (λ _, 0)) in
  1 ≤ currentPage s ≤ totalPages s ∧ displayedPosts s ≠ [].
Proof.
  intros posts s. apply (page_in_range_when_nonempty (λ _, 0) s).
  - apply reachable_run. constructor.
  - by vm_compute.
Defined.

(** X6. With nothing to show, [totalPages] is 0, nothing is displayed and
    [goToPage] accepts no page number at all, page 1 included. *)
Theorem no_page_when_empty {V : Type} (LocalTZA : Z → Z) (s : state V) :
  reachable LocalTZA s → filteredPosts s = [] →
  totalPages s = 0 ∧ displayedPosts s = []
  ∧ ∀ page, step LocalTZA (GoToPage page) s = (s, []).
Proof.
  intros Hs Hempty. pose proof (reachable_consistent _ _ Hs) as Hc.
  pose proof (displayedPosts_window s Hc) as Hshown.
  destruct Hc as (_ & Htotal & _). rewrite Hempty in *.
  change (totalPages s = 0) in Htotal.
  split; [done|]. split.
  - rewrite Hshown. unfold page_window. by rewrite drop_nil, take_nil.
  - intros page. unfold step. simpl.
    rewrite (goToPage_outside LocalTZA) by lia. simpl. by rewrite Z.eqb_refl.
Qed.

Lemma no_page_when_empty_witness :
  let s := run (λ _, 0) [Loaded [mkPost 1 "a" "A" "a.png" "2024-01-01" ["art"] tt];
                         ToggleTag "music"] (mounted (λ _, 0)) in
  totalPages s = 0 ∧ displayedPosts s = []
  ∧ ∀ page, step (λ _, 0) (GoToPage page) s = (s, []).
Proof.
  intros s. apply (no_page_when_empty (λ _, 0) s).
  - apply reachable_run. constructor.
  - by vm_compute.
Defined.

(** X7. Every action that changes the collection, the selected tags or the
    sort order puts the component back on page 1, showing the first twelve
    posts of the new filtered list, and requests no scrolling. *)
Theorem refilter_resets_page {V : Type} (LocalTZA : Z → Z)
    (a : action V) (s : state V) :
  (∀ page, a ≠ GoToPage page) → a ≠ ToggleTagDropdown →
  currentPage (fst (step LocalTZA a s)) = 1
  ∧ displayedPosts (fst (step LocalTZA a s))
    = take 12 (filteredPosts (fst (step LocalTZA a s)))
  ∧ snd (step LocalTZA a s) = [].
Proof.
  intros Hpage Hdrop. rewrite step_refilter by done. split; [done|]. split.
  - simpl. unfold POSTS_PER_PAGE.
    by rewrite (Array_slice_window _ 0 12) by lia.
  - unfold step. destruct a; try done.
    + simpl. unfold toggleTag. by destruct (includes _ _).
    + by edestruct Hpage.
Qed.

Lemma refilter_resets_page_witness :
  let posts := replicate 13 (mkPost 1 "a" "A" "a.png" "2024-01-01" [] tt) in
  let s := run (λ _, 0) [Loaded posts; GoToPage 2] (mounted (λ _, 0)) in
  currentPage s = 2
  ∧ currentPage (fst (step (λ _, 0) ToggleSortOrder s)) = 1.
Proof.
  intros posts s. split; [by vm_compute|].
  by refine (proj1 (refilter_resets_page (λ _, 0) ToggleSortOrder s _ _)).
Defined.

(** X8. From a page that is not the last, the next-page button followed by
    the previous-page button brings back exactly the state the component was
    in, each click requesting one scroll to the top. *)
Theorem next_then_previous {V : Type} (LocalTZA : Z → Z) (s : state V) :
  reachable LocalTZA s → currentPage s < totalPages s →
  let next := step LocalTZA (GoToPage (currentPage s + 1)) s in
  let back :=
    step LocalTZA (GoToPage (currentPage (fst next) - 1)) (fst next) in
  currentPage (fst next) = currentPage s + 1
  ∧ snd next = [scrollTo_top_smooth]
  ∧ fst back = s
  ∧ snd back = [scrollTo_top_smooth].
Proof.
  intros Hs Hlt next back.
  pose proof (reachable_consistent _ _ Hs) as Hc.
  pose proof Hc as (Hpage & Htotal & Hshown).
  assert (1 ≤ currentPage s + 1 ≤ totalPages s) as Hnext by lia.
  pose proof (consistent_step LocalTZA (GoToPage (currentPage s + 1)) s Hc)
    as Hc1.
  destruct (step_goToPage_inside LocalTZA _ s Hnext) as [shown Enext].
  subst back next. rewrite Enext in *. simpl in *.
  replace (currentPage s + 1 - 1) with (currentPage s) by lia.
  set (s1 := setDisplayedPosts shown (setCurrentPage (currentPage s + 1) s))
    in *.
  assert (1 ≤ currentPage s ≤ totalPages s1) as Hback by (simpl; lia).
  pose proof (consistent_step LocalTZA (GoToPage (currentPage s)) s1 Hc1)
    as (_ & _ & Hshown2).
  destruct (step_goToPage_inside LocalTZA _ s1 Hback) as [shown2 Eback].
  rewrite Eback in *. simpl in *. repeat split; try done.
  destruct s. simpl in *. by rewrite Hshown2, Hshown.
Qed.

Lemma next_then_previous_witness :
  let posts :=
    (λ k : nat, mkPost (Z.of_nat k) "a" "A" "a.png" "2024-01-01" [] tt)
      <$> seq 0 30 in
  let s := run (λ _, 0) [Loaded posts; GoToPage 2] (mounted (λ _, 0)) in
  let next := step (λ _, 0) (GoToPage (currentPage s + 1)) s in
  fst (step (λ _, 0) (GoToPage (currentPage (fst next) - 1)) (fst next)) = s.
Proof.
  intros posts s next.
  refine (proj1 (proj2 (proj2 (next_then_previous (λ _, 0) s _ _)))).
  - apply reachable_run. constructor.
  - by vm_compute.
Defined.

(** X9. Selected tags are alternatives: once a tag is selected, selecting
    one more never removes a post from the filtered list. *)
Theorem selecting_more_tags_keeps_posts {V : Type} (LocalTZA : Z → Z)
    (tag : string) (s : state V) (p : post V) :
  reachable LocalTZA s → selectedTags s ≠ [] → tag ∉ selectedTags s →
  p ∈ filteredPosts s →
  p ∈ filteredPosts (fst (step LocalTZA (ToggleTag tag) s)).
Proof.
  intros Hs Hsel Htag Hp.
  rewrite (reachable_in_sync _ _ Hs), Array_sort_elem in Hp.
  apply filterByTags_elem in Hp as [Hin [?|(t & Ht & Htp)]]; [done|].
  rewrite (reachable_in_sync LocalTZA (fst (step LocalTZA (ToggleTag tag) s)))
    by (by constructor).
  rewrite Array_sort_elem, filterByTags_elem.
  rewrite step_blogPosts, (toggleTag_selectedTags LocalTZA tag s).
  apply includes_false in Htag. rewrite Htag. split.
  - simpl. unfold toggleTag. by rewrite Htag.
  - right. exists t. split; [|done]. apply elem_of_app. by left.
Qed.

Lemma selecting_more_tags_keeps_posts_witness :
  let music := mkPost 1 "a" "A" "a.png" "2024-01-01" ["music"] tt in
  let art := mkPost 2 "b" "B" "b.png" "2024-02-01" ["art"] tt in
  let s := run (λ _, 0) [Loaded [music; art]; ToggleTag "music"]
             (mounted (λ _, 0)) in
  music ∈ filteredPosts (fst (step (λ _, 0) (ToggleTag "art") s)).
Proof.
  intros music art s.
  apply (selecting_more_tags_keeps_posts (λ _, 0) "art" s music).
  - apply reachable_run. constructor.
  - by vm_compute.
  - vm_compute. intros Hin. inversion Hin as [|? ? ? Hin']; inversion Hin'.
  - vm_compute. left.
Defined.

(** X10. Clearing the tags shows the whole collection again: no tag is
    selected and the filtered list holds every loaded post exactly as often
    as the collection does. *)
Theorem clearTags_shows_all {V : Type} (LocalTZA : Z → Z) (s : state V) :
  let cleared := fst (step LocalTZA ClearTags s) in
  selectedTags cleared = []
  ∧ blogPosts cleared = blogPosts s
  ∧ filteredPosts cleared ≡ₚ blogPosts s
  ∧ length (filteredPosts cleared) = length (blogPosts s).
Proof.
  intros cleared. subst cleared. unfold step. simpl.
  assert (Array_sort (compareDates LocalTZA (sortOrder s)) (blogPosts s)
          ≡ₚ blogPosts s) as Hperm by apply Array_sort_perm.
  repeat split; [done|]. by rewrite Hperm.
Qed.

Section Reversal.
Context {V : Type}.
Variable LocalTZA : Z → Z.
Implicit Types (s : state V) (p : post V) (posts : list (post V)).

Lemma StronglySorted_reverse {A : Type} (R : A → A → Prop) (l : list A) :
  StronglySorted R l → StronglySorted (flip R) (reverse l).
Proof.
  induction 1 as [|x l Hl IH Hx]; [constructor|].
  rewrite reverse_cons. apply StronglySorted_app_2; [|done|repeat constructor].
  intros a b Ha ->%list_elem_of_singleton. rewrite elem_of_reverse in Ha.
  rewrite Forall_forall in Hx. unfold flip. by apply Hx.
Qed.

Lemma NoDup_fmap_elem_inj {A B : Type} (f : A → B) (l : list A) (x y : A) :
  NoDup (f <$> l) → x ∈ l → y ∈ l → f x = f y → x = y.
Proof.
  induction l as [|z l IH]; intros Hnd Hx Hy Hf.
  - by apply elem_of_nil in Hx.
  - rewrite fmap_cons in Hnd. apply NoDup_cons in Hnd as [Hz Hnd].
    apply elem_of_cons in Hx as [Hx|Hx], Hy as [Hy|Hy].
    + congruence.
    + exfalso. apply Hz. rewrite <- Hx, Hf. by apply list_elem_of_fmap_2.
    + exfalso. apply Hz. rewrite <- Hy, <- Hf. by apply list_elem_of_fmap_2.
    + by apply IH.
Qed.

Lemma date_le_antisym p q :
  date_le LocalTZA p q → date_le LocalTZA q p →
  getTime LocalTZA p = getTime LocalTZA q.
Proof.
  intros (tp & tq & Hp & Hq & Hle) (tq' & tp' & Hq' & Hp' & Hle').
  rewrite Hp, Hq in *. injection Hq' as <-. injection Hp' as <-.
  f_equal. lia.
Qed.

(** With pairwise distinct parseable dates, the two sort orders are the
    reverse of each other. *)
Lemma newest_is_oldest_reversed posts :
  Forall (λ p, is_Some (getTime LocalTZA p)) posts →
  NoDup (getTime LocalTZA <$> posts) →
  Array_sort (compareDates LocalTZA newest) posts
  = reverse (Array_sort (compareDates LocalTZA oldest) posts).
Proof.
  intros Hall Hnd.
  apply (StronglySorted_unique_strong (λ a b, date_le LocalTZA b a)).
  - intros x1 x2 Hx1%Array_sort_elem Hx2 H12 H21.
    rewrite elem_of_reverse, Array_sort_elem in Hx2.
    eapply NoDup_fmap_elem_inj; [exact Hnd | done | done |].
    by apply date_le_antisym.
  - apply (sorted_by_date LocalTZA newest posts Hall).
  - apply (StronglySorted_reverse (λ a b, date_le LocalTZA a b)).
    apply (sorted_by_date LocalTZA oldest posts Hall).
  - by rewrite reverse_Permutation, !Array_sort_perm.
Qed.
End Reversal.

(** X11. When the loaded posts have pairwise distinct, parseable creation
    dates, the sort-order button reverses the filtered list. *)
Theorem toggleSortOrder_reverses {V : Type} (LocalTZA : Z → Z) (s : state V) :
  reachable LocalTZA s →
  Forall (λ p, is_Some (getTime LocalTZA p)) (blogPosts s) →
  NoDup (getTime LocalTZA <$> blogPosts s) →
  filteredPosts (fst (step LocalTZA ToggleSortOrder s))
  = reverse (filteredPosts s).
Proof.
  intros Hs Hall Hnd. rewrite (reachable_in_sync _ _ Hs).
  unfold step. simpl.
  set (passing := filterByTags (selectedTags s) (blogPosts s)).
  assert (passing `sublist_of` blogPosts s) as Hsub
    by apply filterByTags_sublist.
  assert (Forall (λ p, is_Some (getTime LocalTZA p)) passing) as Hall'.
  { rewrite Forall_forall in *. intros p Hp. apply Hall.
    by eapply elem_of_sublist. }
  assert (NoDup (getTime LocalTZA <$> passing)) as Hnd'.
  { eapply sublist_NoDup; [exact Hnd|]. by apply fmap_sublist. }
  destruct (sortOrder s).
  - by rewrite (newest_is_oldest_reversed LocalTZA passing), reverse_involutive.
  - by apply newest_is_oldest_reversed.
Qed.

Lemma toggleSortOrder_reverses_witness :
  let posts :=
    [ mkPost 1 "a" "A" "a.png" "2024-01-01" [] tt;
      mkPost 2 "b" "B" "b.png" "2024-06-01" [] tt;
      mkPost 3 "c" "C" "c.png" "2023-12-31" [] tt ] in
  let s := run (λ _, 0) [Loaded posts] (mounted (λ _, 0)) in
  filteredPosts (fst (step (λ _, 0) ToggleSortOrder s))
  = reverse (filteredPosts s).
Proof.
  intros posts s. apply (toggleSortOrder_reverses (λ _, 0) s).
  - apply reachable_run. constructor.
  - repeat constructor; by eexists.
  - vm_compute. repeat constructor; rewrite ?elem_of_cons, ?elem_of_nil;
      intros H; repeat destruct H as [H|H]; try discriminate; done.
Defined.

(** ** The distinct tags *)

Section DefaultSort.
Context {A : Type}.
Variable comparefn : A → A → option Z.
Variable R : A → A → Prop.
Hypothesis R_trans : ∀ x y z, R x y → R y z → R x z.
Hypothesis R_after : ∀ x y, 0 < SortCompare comparefn x y → R y x.
Hypothesis R_before : ∀ x y, ¬ 0 < SortCompare comparefn x y → R x y.


End DefaultSort.








Section JoinedTags.
Context {V : Type}.
Implicit Types (items : list (Item.t V)) (joins : list JoinRow.t)
  (dict : list Tag.t) (tm : gmap Z string).

End JoinedTags.


(** ** Query strings *)

Section QueryStrings.
Import URLSearchParams.

(** One character at a time: what [encode] writes for [c] reads back as [c],
    and is neither [&] nor [=]. *)
Lemma decode_encode_String (c : ascii) (rest : string) :
  decode (encode (String c rest)) = String c (decode (encode rest)).
Proof. destruct c as [[] [] [] [] [] [] [] []]; reflexivity. Qed.

Lemma occurs_encode_String (sep c : ascii) (rest : string) :
  sep = "&"%char ∨ sep = "="%char →
  occurs sep (encode (String c rest)) = occurs sep (encode rest).
Proof.
  intros [-> | ->]; destruct c as [[] [] [] [] [] [] [] []]; reflexivity.
Qed.

Lemma decode_encode (s : string) : decode (encode s) = s.
Proof.
  induction s as [|c s IH]; [done|].
  by rewrite decode_encode_String, IH.
Qed.

Lemma occurs_encode (sep : ascii) (s : string) :
  sep = "&"%char ∨ sep = "="%char → occurs sep (encode s) = false.
Proof.
  intros Hsep. induction s as [|c s IH]; [done|].
  by rewrite occurs_encode_String.
Qed.

Lemma occurs_append (sep : ascii) (a b : string) :
  occurs sep (a +:+ b) = occurs sep a || occurs sep b.
Proof.
  induction a as [|c a IH]; simpl; [done|]. by rewrite IH, orb_assoc.
Qed.

Lemma split_first_append (sep : ascii) (a b : string) :
  occurs sep a = false → split_first sep (a +:+ String sep b) = (a, b).
Proof.
  induction a as [|c a IH]; simpl.
  - by rewrite Ascii.eqb_refl.
  - intros [Hc Ha]%orb_false_iff. rewrite Ascii.eqb_sym, Hc, IH by done. done.
Qed.

Lemma split_append (sep : ascii) (a b : string) :
  occurs sep a = false → split sep (a +:+ String sep b) = a :: split sep b.
Proof.
  induction a as [|c a IH]; simpl.
  - by rewrite Ascii.eqb_refl.
  - intros [Hc Ha]%orb_false_iff. rewrite Ascii.eqb_sym, Hc, IH by done. done.
Qed.

Lemma split_whole (sep : ascii) (a : string) :
  occurs sep a = false → split sep a = [a].
Proof.
  induction a as [|c a IH]; simpl; [done|].
  intros [Hc Ha]%orb_false_iff. rewrite Ascii.eqb_sym, Hc, IH by done. done.
Qed.

Lemma append_assoc (a b c : string) : (a +:+ b) +:+ c = a +:+ (b +:+ c).
Proof.
  induction a as [|x a IH]; [done|].
  change (String x ((a +:+ b) +:+ c) = String x (a +:+ (b +:+ c))).
  by rewrite IH.
Qed.

(** One [name=value] pair, as [toString] writes it. *)
Lemma pair_reads_back (k v : string) :
  (let '(k', v') := split_first "=" (encode k +:+ "=" +:+ encode v) in
   (decode k', decode v')) = (k, v).
Proof.
  change ("=" +:+ encode v) with (String "=" (encode v)).
  rewrite split_first_append by (apply occurs_encode; auto).
  by rewrite !decode_encode.
Qed.

Lemma pair_without_ampersand (k v : string) :
  occurs "&" (encode k +:+ "=" +:+ encode v) = false.
Proof.
  rewrite !occurs_append, !occurs_encode by auto. done.
Qed.

Lemma pair_nonempty (k v : string) :
  encode k +:+ "=" +:+ encode v ≠ EmptyString.
Proof. destruct (encode k); simpl; discriminate. Qed.

(** Reading a serialized query gives back the pairs that were written. *)
Lemma parse_toString (params : list (string * string)) :
  parse (toString params) = params.
Proof.
  unfold parse. induction params as [|[k v] params IH]; [done|].
  destruct params as [|kv params].
  - simpl. rewrite split_whole by apply pair_without_ampersand.
    rewrite filter_cons, decide_True by apply pair_nonempty.
    rewrite filter_nil. simpl. by rewrite pair_reads_back.
  - change (toString ((k, v) :: kv :: params))
      with (encode k +:+ "=" +:+ encode v +:+ "&" +:+ toString (kv :: params)).
    replace (encode k +:+ "=" +:+ encode v +:+ "&" +:+ toString (kv :: params))
      with ((encode k +:+ "=" +:+ encode v)
            +:+ String "&" (toString (kv :: params)))
      by (by rewrite !append_assoc).
    rewrite split_append by apply pair_without_ampersand.
    rewrite filter_cons, decide_True by apply pair_nonempty.
    rewrite fmap_cons, IH. by rewrite pair_reads_back.
Qed.
End QueryStrings.

(** ** The calendar links *)

Section CalendarLinks.
Variable LocalTZA : Z → Z.

Lemma get_calendar_url (name : string) (params : list (string * string)) :
  URLSearchParams.get name
    ("https://calendar.google.com/calendar/render?"
     +:+ URLSearchParams.toString params)
  = (λ found, snd (snd found)) <$> list_find (λ kv, fst kv = name) params.
Proof.
  unfold URLSearchParams.get.
  change ("https://calendar.google.com/calendar/render?"
          +:+ URLSearchParams.toString params)
    with ("https://calendar.google.com/calendar/render"
          +:+ String "?" (URLSearchParams.toString params)).
  rewrite split_first_append by done. simpl.
  by rewrite parse_toString.
Qed.

Lemma formatDate_Some (t : Z) : ∃ formatted, formatDate (Some t) = Return formatted.
Proof. unfold formatDate. simpl. eauto. Qed.

Lemma formatDate_None : formatDate None = Throw "RangeError: Invalid time value".
Proof. done. Qed.

Lemma generateGoogleCalendarUrl_cases (p : post event_fields) :
  match new_Date LocalTZA (time (variant p)),
        new_Date LocalTZA (end_time (variant p)) with
  | Some t1, Some t2 =>
      ∃ start end_,
        formatDate (Some t1) = Return start
        ∧ formatDate (Some t2) = Return end_
        ∧ generateGoogleCalendarUrl LocalTZA p
          = Return ("https://calendar.google.com/calendar/render?"
                    +:+ URLSearchParams.toString
                          (calendar_params p (start +:+ "/" +:+ end_)))
  | _, _ =>
      generateGoogleCalendarUrl LocalTZA p
      = Throw "RangeError: Invalid time value"
  end.
Proof.
  unfold generateGoogleCalendarUrl.
  destruct (new_Date LocalTZA (time (variant p))) as [t1|]; [|done].
  destruct (formatDate_Some t1) as [start Hstart]. rewrite Hstart.
  destruct (new_Date LocalTZA (end_time (variant p))) as [t2|]; [|done].
  destruct (formatDate_Some t2) as [end_ Hend]. rewrite Hend.
  by exists start, end_.
Qed.

Lemma detail_generateGoogleCalendarUrl_cases (p : post detail_fields) :
  match new_Date LocalTZA (detail_time (variant p)),
        new_Date LocalTZA (detail_end_time (variant p)) with
  | Some t1, Some t2 =>
      ∃ start end_,
        formatDate (Some t1) = Return start
        ∧ formatDate (Some t2) = Return end_
        ∧ SinglePost.generateGoogleCalendarUrl LocalTZA p
          = Return ("https://calendar.google.com/calendar/render?"
                    +:+ URLSearchParams.toString
                          (SinglePost.calendar_params p (start +:+ "/" +:+ end_)))
  | _, _ =>
      SinglePost.generateGoogleCalendarUrl LocalTZA p
      = Throw "RangeError: Invalid time value"
  end.
Proof.
  unfold SinglePost.generateGoogleCalendarUrl.
  destruct (new_Date LocalTZA (detail_time (variant p))) as [t1|]; [|done].
  destruct (formatDate_Some t1) as [start Hstart]. rewrite Hstart.
  destruct (new_Date LocalTZA (detail_end_time (variant p))) as [t2|]; [|done].
  destruct (formatDate_Some t2) as [end_ Hend]. rewrite Hend.
  by exists start, end_.
Qed.
End CalendarLinks.


(** X13. Whatever characters the title and the location contain, a
    generated link carries them intact: read back from the URL, [text] is
    the title, [location] the location, [details] the title followed by the
    fixed sentence, [action] is TEMPLATE and [dates] the two formatted
    instants separated by a slash. *)
Theorem calendar_link_reads_back (LocalTZA : Z → Z)
    (p : post event_fields) (url : string) :
  generateGoogleCalendarUrl LocalTZA p = Return url →
  URLSearchParams.get "action" url = Some "TEMPLATE"
  ∧ URLSearchParams.get "text" url = Some (title p)
  ∧ URLSearchParams.get "details" url
    = Some (title p +:+ " - Learn more at our website.")
  ∧ URLSearchParams.get "location" url = Some (location (variant p))
  ∧ ∃ start end_,
      formatDate (new_Date LocalTZA (time (variant p))) = Return start
      ∧ formatDate (new_Date LocalTZA (end_time (variant p))) = Return end_
      ∧ URLSearchParams.get "dates" url = Some (start +:+ "/" +:+ end_).
Proof.
  intros Hurl. pose proof (generateGoogleCalendarUrl_cases LocalTZA p) as Hcases.
  destruct (new_Date LocalTZA (time (variant p))) as [t1|],
           (new_Date LocalTZA (end_time (variant p))) as [t2|];
    try congruence.
  destruct Hcases as (start & end_ & Hstart & Hend & Hgen).
  assert (url = "https://calendar.google.com/calendar/render?"
                +:+ URLSearchParams.toString
                      (calendar_params p (start +:+ "/" +:+ end_))) as ->
    by congruence.
  rewrite !get_calendar_url. repeat split; try done.
  by exists start, end_.
Qed.

Lemma calendar_link_reads_back_witness :
  let p :=
    mkPost 7 "rock" "Rock & Roll = 100% fun?" "r.png" "2024-06-01" []
      (mkEvent "2024-07-01T10:00:00Z" "Main St. #5, Oulu"
               "2024-07-01T12:00:00Z") in
  URLSearchParams.get "text"
    "https://calendar.google.com/calendar/render?action=TEMPLATE&text=Rock+%26+Roll+%3D+100%25+fun%3F&details=Rock+%26+Roll+%3D+100%25+fun%3F+-+Learn+more+at+our+website.&location=Main+St.+%235%2C+Oulu&dates=20240701T100000Z%2F20240701T120000Z"
  = Some (title p).
Proof.
  intros p.
  refine (proj1 (proj2 (calendar_link_reads_back (λ _, 0) p _ _))).
  by vm_compute.
Defined.

(** X14. The detail page's calendar link and the listing's link for the
    same event fail together and, when they do not, agree on every
    parameter except [details], which only the listing's link carries. *)
Theorem detail_and_listing_links_agree (LocalTZA : Z → Z)
    (p : post detail_fields) :
  (SinglePost.generateGoogleCalendarUrl LocalTZA p
     = Throw "RangeError: Invalid time value"
   ↔ generateGoogleCalendarUrl LocalTZA (listed p)
     = Throw "RangeError: Invalid time value")
  ∧ ∀ detail_url listing_url,
      SinglePost.generateGoogleCalendarUrl LocalTZA p = Return detail_url →
      generateGoogleCalendarUrl LocalTZA (listed p) = Return listing_url →
      URLSearchParams.get "details" detail_url = None
      ∧ URLSearchParams.get "details" listing_url
        = Some (title p +:+ " - Learn more at our website.")
      ∧ ∀ name, name ≠ "details" →
          URLSearchParams.get name detail_url
          = URLSearchParams.get name listing_url.
Proof.
  pose proof (detail_generateGoogleCalendarUrl_cases LocalTZA p) as Hdetail.
  pose proof (generateGoogleCalendarUrl_cases LocalTZA (listed p)) as Hlisting.
  change (time (variant (listed p))) with (detail_time (variant p))
    in Hlisting.
  change (end_time (variant (listed p))) with (detail_end_time (variant p))
    in Hlisting.
  destruct (new_Date LocalTZA (detail_time (variant p))) as [t1|],
           (new_Date LocalTZA (detail_end_time (variant p))) as [t2|];
    try (rewrite Hdetail, Hlisting; split; [done | intros; congruence]).
  destruct Hdetail as (start & end_ & Hstart & Hend & Hd).
  destruct Hlisting as (start' & end' & Hstart' & Hend' & Hl).
  assert (start' = start) as -> by congruence.
  assert (end' = end_) as -> by congruence.
  rewrite Hd, Hl. split; [done|].
  intros detail_url listing_url Hdu Hlu.
  assert (detail_url
          = "https://calendar.google.com/calendar/render?"
            +:+ URLSearchParams.toString
                  (SinglePost.calendar_params p (start +:+ "/" +:+ end_)))
    as -> by congruence.
  assert (listing_url
          = "https://calendar.google.com/calendar/render?"
            +:+ URLSearchParams.toString
                  (calendar_params (listed p) (start +:+ "/" +:+ end_)))
    as -> by congruence.
  rewrite !get_calendar_url. split; [done|]. split; [done|].
  intros name Hname. rewrite !get_calendar_url.
  unfold calendar_params, SinglePost.calendar_params. simpl.
  repeat case_decide; simpl in *; congruence.
Qed.

(** ** The format of the dates *)

Section DateFormat.
Import Date.

Lemma digit_char_cases (z : Z) :
  ∃ d, digit_char (z mod 10) = d
       ∧ d ∈ ["0"; "1"; "2"; "3"; "4"; "5"; "6"; "7"; "8"; "9"]%char.
Proof.
  eexists. split; [done|].
  pose proof (Z.mod_pos_bound z 10 eq_refl) as Hr.
  assert (z mod 10 = 0 ∨ z mod 10 = 1 ∨ z mod 10 = 2 ∨ z mod 10 = 3
          ∨ z mod 10 = 4 ∨ z mod 10 = 5 ∨ z mod 10 = 6 ∨ z mod 10 = 7
          ∨ z mod 10 = 8 ∨ z mod 10 = 9) as Hcases by lia.
  repeat destruct Hcases as [->|Hcases]; try rewrite Hcases;
    rewrite !elem_of_cons; tauto.
Qed.

Lemma strip_digit (flag : bool) (z : Z) (rest : string) :
  strip_separators false (String (digit_char (z mod 10)) rest)
  = String (digit_char (z mod 10)) (strip_separators false rest)
  ∧ strip_separators true (String (digit_char (z mod 10)) rest)
    = strip_separators true rest.
Proof.
  destruct (digit_char_cases z) as (d & -> & Hd).
  rewrite !elem_of_cons, elem_of_nil in Hd.
  repeat destruct Hd as [->|Hd]; try done.
Qed.

Lemma strip_pad (n : nat) (z : Z) (suffix : string) :
  strip_separators false (pad n z suffix)
  = pad n z (strip_separators false suffix).
Proof.
  revert z suffix. induction n as [|n IH]; intros z suffix; simpl; [done|].
  by rewrite IH, (proj1 (strip_digit false z suffix)).
Qed.

Lemma strip_fraction (n : nat) (z : Z) (suffix : string) :
  strip_separators true (pad n z suffix) = strip_separators true suffix.
Proof.
  revert z suffix. induction n as [|n IH]; intros z suffix; simpl; [done|].
  by rewrite IH, (proj2 (strip_digit false z suffix)).
Qed.

Lemma strip_milliseconds (z : Z) :
  strip_separators false (String "." (pad 3 z "Z")) = "Z".
Proof.
  change (pad 3 z "Z")
    with (String (digit_char (z / 10 / 10 mod 10))
            (String (digit_char (z / 10 mod 10))
               (String (digit_char (z mod 10)) "Z"))).
  destruct (digit_char_cases (z / 10 / 10)) as (d & Hd & Hin).
  assert (strip_separators false
            (String "." (String (digit_char (z / 10 / 10 mod 10))
               (String (digit_char (z / 10 mod 10))
                  (String (digit_char (z mod 10)) "Z"))))
          = strip_separators true
              (String (digit_char (z / 10 / 10 mod 10))
                 (String (digit_char (z / 10 mod 10))
                    (String (digit_char (z mod 10)) "Z")))) as ->.
  { rewrite Hd. rewrite !elem_of_cons, elem_of_nil in Hin.
    repeat destruct Hin as [->|Hin]; try done. }
  by rewrite !(proj2 (strip_digit false _ _)).
Qed.

Lemma length_pad (n : nat) (z : Z) (suffix : string) :
  String.length (pad n z suffix) = (n + String.length suffix)%nat.
Proof.
  revert z suffix. induction n as [|n IH]; intros z suffix; simpl; [done|].
  rewrite IH. simpl. lia.
Qed.
End DateFormat.

Section IsoShape.
Import Date.

Lemma strip_hyphen (r : string) :
  strip_separators false (String "-" r) = strip_separators false r.
Proof. done. Qed.

Lemma strip_colon (r : string) :
  strip_separators false (String ":" r) = strip_separators false r.
Proof. done. Qed.

Lemma strip_T (r : string) :
  strip_separators false (String "T" r) = String "T" (strip_separators false r).
Proof. done. Qed.

Lemma strip_iso (Y M D h mi sec ms : Z) :
  strip_separators false
    (pad 4 Y (String "-" (pad 2 M (String "-" (pad 2 D (String "T"
      (pad 2 h (String ":" (pad 2 mi (String ":" (pad 2 sec
        (String "." (pad 3 ms "Z")))))))))))))
  = pad 4 Y (pad 2 M (pad 2 D (String "T" (pad 2 h (pad 2 mi (pad 2 sec "Z")))))).
Proof.
  rewrite strip_pad, strip_hyphen, strip_pad, strip_hyphen, strip_pad, strip_T.
  rewrite strip_pad, strip_colon, strip_pad, strip_colon, strip_pad.
  by rewrite strip_milliseconds.
Qed.

Lemma occurs_pad (sep : ascii) (n : nat) (z : Z) (suffix : string) :
  sep = "-"%char ∨ sep = ":"%char ∨ sep = "."%char →
  occurs sep (pad n z suffix) = occurs sep suffix.
Proof.
  intros Hsep. revert z suffix.
  induction n as [|n IH]; intros z suffix; [done|].
  simpl. rewrite IH. simpl.
  destruct (digit_char_cases z) as (d & -> & Hd).
  rewrite !elem_of_cons, elem_of_nil in Hd.
  destruct Hsep as [->|[->| ->]];
    repeat destruct Hd as [->|Hd]; try done.
Qed.

Lemma compact_shape (Y M D h mi sec : Z) :
  let formatted :=
    pad 4 Y (pad 2 M (pad 2 D (String "T" (pad 2 h (pad 2 mi (pad 2 sec "Z")))))) in
  String.length formatted = 16%nat
  ∧ occurs "-" formatted = false ∧ occurs ":" formatted = false
  ∧ occurs "." formatted = false.
Proof.
  intros formatted. subst formatted. split.
  - rewrite !length_pad. cbn [String.length]. rewrite !length_pad. done.
  - rewrite !occurs_pad by auto. cbn [occurs]. rewrite !occurs_pad by auto.
    done.
Qed.
End IsoShape.

(** X15. For every valid date whose UTC year has four digits, [formatDate]
    yields the sixteen characters YYYYMMDDTHHMMSSZ: the ISO string without
    its hyphens, colons and milliseconds. *)
Theorem formatDate_shape (t : Z) :
  0 ≤ Date.YearFromTime t ≤ 9999 →
  formatDate (Some t)
  = Return
      (Date.pad 4 (Date.YearFromTime t)
        (Date.pad 2 (Date.MonthFromTime t)
          (Date.pad 2 (Date.DateFromTime t)
            (String "T"
              (Date.pad 2 (Date.HourFromTime t)
                (Date.pad 2 (Date.MinFromTime t)
                  (Date.pad 2 (Date.SecFromTime t) "Z")))))))
  ∧ ∀ formatted, formatDate (Some t) = Return formatted →
      String.length formatted = 16%nat
      ∧ occurs "-" formatted = false ∧ occurs ":" formatted = false
      ∧ occurs "." formatted = false.
Proof.
  intros Hyear.
  assert (formatDate (Some t)
          = Return
              (Date.pad 4 (Date.YearFromTime t)
                (Date.pad 2 (Date.MonthFromTime t)
                  (Date.pad 2 (Date.DateFromTime t)
                    (String "T"
                      (Date.pad 2 (Date.HourFromTime t)
                        (Date.pad 2 (Date.MinFromTime t)
                          (Date.pad 2 (Date.SecFromTime t) "Z")))))))) as Hshape.
  { unfold formatDate, Date.toISOString, Date.year_string.
    replace ((0 <=? Date.YearFromTime t) && (Date.YearFromTime t <=? 9999))
      with true by (symmetry; apply andb_true_iff; rewrite !Z.leb_le; lia).
    cbv beta iota zeta. f_equal. apply strip_iso. }
  split; [exact Hshape|]. intros formatted Hf. rewrite Hshape in Hf.
  assert (formatted
          = Date.pad 4 (Date.YearFromTime t)
              (Date.pad 2 (Date.MonthFromTime t)
                (Date.pad 2 (Date.DateFromTime t)
                  (String "T"
                    (Date.pad 2 (Date.HourFromTime t)
                      (Date.pad 2 (Date.MinFromTime t)
                        (Date.pad 2 (Date.SecFromTime t) "Z"))))))) as ->
    by congruence.
  apply compact_shape.
Qed.

Lemma formatDate_shape_witness :
  formatDate (Some 1719828000000) = Return "20240701T100000Z".
Proof.
  refine (eq_trans (proj1 (formatDate_shape 1719828000000 _)) _).
  - by vm_compute.
  - by vm_compute.
Defined.

(** ** The detail page *)

(** X16. The detail page never ends on its not-found view.  While the
    aggregator's answer is pending it shows the loading view; an answer with
    at least one item shows the first item; an empty answer, which is also
    what a failed fetch or a slug without item gives, ends on the error view
    with the message "Failed to load post data.", the exception of
    [notFound()] being caught and logged by the surrounding [try]. *)
Theorem detail_page_outcomes {V : Type} (NEXT_NOT_FOUND : string)
    (answer : promise (list (post V))) :
  let after := SinglePost.fetchData NEXT_NOT_FOUND answer SinglePost.initial in
  SinglePost.render (fst after) ≠ SinglePost.NotFound
  ∧ (answer = Pending →
     SinglePost.render (fst after) = SinglePost.Loading ∧ snd after = [])
  ∧ (answer = Fulfilled [] →
     SinglePost.render (fst after) = SinglePost.Error "Failed to load post data."
     ∧ snd after = [console_error "Error fetching post data:" NEXT_NOT_FOUND])
  ∧ (∀ first rest, answer = Fulfilled (first :: rest) →
     SinglePost.render (fst after) = SinglePost.Post first ∧ snd after = [])
  ∧ ∀ msg (p : promise (list (Item.t V))) q r out,
      fetchWithTags msg p q r out → answer = fst out →
      (∃ e, p = Rejected e) ∨ (∃ e, q = Rejected e) ∨ (∃ e, r = Rejected e)
      ∨ (∃ joins dict, p = Fulfilled [] ∧ q = Fulfilled joins
                       ∧ r = Fulfilled dict) →
      SinglePost.render (fst after)
      = SinglePost.Error "Failed to load post data.".
Proof.
  intros after. subst after.
  split; [|split; [|split; [|split]]].
  - destruct answer as [[|first rest]|e|]; simpl; done.
  - by intros ->.
  - by intros ->.
  - by intros first rest ->.
  - intros msg p q r out (fetched & Hall & ->) -> Hcase.
    destruct Hcase as [Hrej|[Hrej|[Hrej|(joins & dict & -> & -> & ->)]]].
    + destruct (Promise_all_rejected p q r fetched Hall) as (e & -> & _);
        [auto | done].
    + destruct (Promise_all_rejected p q r fetched Hall) as (e & -> & _);
        [auto | done].
    + destruct (Promise_all_rejected p q r fetched Hall) as (e & -> & _);
        [auto | done].
    + by inversion Hall.
Qed.

Section DateDisplay.
Import URLSearchParams.

Lemma split_nonempty (sep : ascii) (s : string) : split sep s ≠ [].
Proof.
  destruct s as [|c s]; simpl; [done|].
  destruct (Ascii.eqb c sep); [done|]. by destruct (split sep s).
Qed.

Lemma occurs_first (sep : ascii) (s : string) :
  occurs sep s = true →
  ∃ a b, s = a +:+ String sep b ∧ occurs sep a = false.
Proof.
  induction s as [|c s IH]; simpl; [done|].
  destruct (Ascii.eqb sep c) eqn:E; simpl.
  - apply Ascii.eqb_eq in E as ->. intros _. by exists EmptyString, s.
  - intros (a & b & -> & Ha)%IH. exists (String c a), b.
    split; [done|]. simpl. by rewrite E.
Qed.

Lemma join_split_replaceAll (from to : ascii) (s : string) :
  Array_join (String to EmptyString) (split from s) = replaceAll from to s.
Proof.
  induction s as [|c s IH]; simpl; [done|].
  pose proof (split_nonempty from s) as Hne.
  destruct (Ascii.eqb c from).
  - rewrite <- IH. by destruct (split from s).
  - rewrite <- IH. destruct (split from s) as [|piece [|piece' pieces]]; done.
Qed.

Lemma Array_slice_first_two {A : Type} (x y : A) (l : list A) :
  Array_slice (x :: y :: l) 0 2 = [x; y].
Proof.
  change (Array_slice (x :: y :: l) 0 (0 + 2) = [x; y]).
  by rewrite Array_slice_window by lia.
Qed.
End DateDisplay.

(** X17. The time of day on the detail page is computed only when the
    event's time contains the letter T: without one, rendering throws a
    TypeError. *)
Theorem showTime_needs_T (time : string) :
  (occurs "T" time = false
   ↔ SinglePost.showTime time
     = Throw "TypeError: Cannot read properties of undefined")
  ∧ (occurs "T" time = true ↔ ∃ shown, SinglePost.showTime time = Return shown).
Proof.
  unfold SinglePost.showTime, String_split.
  destruct (occurs "T" time) eqn:E.
  - apply occurs_first in E as (a & b & -> & Ha).
    rewrite split_append by done.
    pose proof (split_nonempty "T" b) as Hne.
    destruct (URLSearchParams.split "T" b) as [|clock pieces]; [done|].
    simpl. split; [split; done | split; eauto].
  - rewrite split_whole by done. simpl.
    split; [done | split; [done | intros [? ?]; done]].
Qed.

(** X18. For a time written as a date, the letter T, hours, minutes and
    whatever follows after a second colon, the detail page shows the date
    with its hyphens turned into slashes and the time of day as
    hours:minutes. *)
Theorem showDate_showTime_iso (date hh mm rest : string) :
  occurs "T" date = false →
  occurs "T" hh = false → occurs ":" hh = false →
  occurs "T" mm = false → occurs ":" mm = false →
  occurs "T" rest = false →
  let time := date +:+ "T" +:+ hh +:+ ":" +:+ mm +:+ ":" +:+ rest in
  SinglePost.showDate time = replaceAll "-" "/" date
  ∧ SinglePost.showTime time = Return (hh +:+ ":" +:+ mm).
Proof.
  intros Hdate HhhT Hhh HmmT Hmm Hrest time. subst time.
  unfold SinglePost.showDate, SinglePost.showTime, String_split.
  change (date +:+ "T" +:+ hh +:+ ":" +:+ mm +:+ ":" +:+ rest)
    with (date +:+ String "T" (hh +:+ String ":" (mm +:+ String ":" rest))).
  rewrite split_append by done.
  rewrite (split_whole "T")
    by (rewrite !occurs_append; simpl; rewrite !occurs_append; simpl;
        by rewrite HhhT, HmmT, Hrest).
  simpl. split.
  - apply join_split_replaceAll.
  - rewrite !split_append by done.
    by rewrite Array_slice_first_two.
Qed.

Lemma showDate_showTime_iso_witness :
  SinglePost.showDate "2024-07-01T10:30:00" = "2024/07/01"
  ∧ SinglePost.showTime "2024-07-01T10:30:00" = Return "10:30".
Proof.
  exact (showDate_showTime_iso "2024-07-01" "10" "30" "00"
           eq_refl eq_refl eq_refl eq_refl eq_refl eq_refl).
Defined.

(** X19. The placeholder image is never used: the image address is always
    the base address, [/assets/] and the image name, also when the image
    name is empty or the base address is not configured. *)
Theorem imageSrc_never_placeholder (env : option string) (image : string) :
  imageSrc env image = default "undefined" env +:+ "/assets/" +:+ image
  ∧ imageSrc env image ≠ "/placeholder.svg"
  ∧ imageSrc None "" = "undefined/assets/".
Proof.
  assert (imageSrc env image = default "undefined" env +:+ "/assets/" +:+ image)
    as Hsrc.
  { unfold imageSrc. cbv zeta.
    destruct (default "undefined" env) as [|c base]; done. }
  split; [done|]. split; [|done].
  rewrite Hsrc. intros Heq. apply (f_equal (occurs "t")) in Heq.
  rewrite !occurs_append in Heq. simpl in Heq.
  by rewrite orb_true_r in Heq.
Qed.

(** ** More on loading *)

(** X20. When several rows of the tag dictionary share an id, the join uses
    the label of the last of them, whatever labels the earlier rows give. *)
Theorem aggregate_last_label_wins {V : Type} (item : Item.t V)
    (j : JoinRow.t) (earlier later : list Tag.t) (t : Tag.t) :
  JoinRow.items_id j = Item.id item →
  JoinRow.tags_id j = Tag.id t →
  (∀ t', t' ∈ later → Tag.id t' ≠ Tag.id t) →
  tags <$> aggregate [item] [j] (earlier ++ t :: later)
  = [if Boolean (Tag.tag t) then [Tag.tag t] else []].
Proof.
  intros Hitem Htag Hlater.
  change (tags <$> aggregate [item] [j] (earlier ++ t :: later))
    with [tags (withTags [j] (tagMap (earlier ++ t :: later)) item)].
  rewrite withTags_resolved. simpl. rewrite decide_True by done.
  unfold resolvable. rewrite Htag, tagMap_last_wins by done.
  by destruct (Boolean (Tag.tag t)).
Qed.

Lemma aggregate_last_label_wins_witness :
  tags <$> aggregate [Item.mk 1 "fair" "Fair" "f.png" "2024-01-01" tt]
             [JoinRow.mk 1 5]
             ([Tag.mk 5 "old"; Tag.mk 6 "art"]
              ++ Tag.mk 5 "music" :: [Tag.mk 7 "sport"])
  = [["music"]].
Proof.
  refine (aggregate_last_label_wins
            (Item.mk 1 "fair" "Fair" "f.png" "2024-01-01" tt) (JoinRow.mk 1 5)
            [Tag.mk 5 "old"; Tag.mk 6 "art"] [Tag.mk 7 "sport"]
            (Tag.mk 5 "music") eq_refl eq_refl _).
  intros t' ->%list_elem_of_singleton. done.
Defined.

(** X21. When a fetch fails, the listing ends up empty rather than broken:
    the aggregator's answer makes the loader store the empty collection
    without logging anything itself, after which no post is filtered or
    displayed, there is no page and no tag to choose from, whatever the
    component showed before. *)
Theorem failed_load_shows_no_posts {V : Type} (LocalTZA : Z → Z)
    (msg load_msg : string)
    (p : promise (list (Item.t V))) (q : promise (list JoinRow.t))
    (r : promise (list Tag.t))
    (out : promise (list (post V)) * list log_entry) (s : state V) :
  (∃ e, p = Rejected e) ∨ (∃ e, q = Rejected e) ∨ (∃ e, r = Rejected e) →
  fetchWithTags msg p q r out →
  loadPosts load_msg (fst out) = (Some (Loaded []), [])
  ∧ let s' := fst (step LocalTZA (Loaded []) s) in
    blogPosts s' = [] ∧ filteredPosts s' = [] ∧ displayedPosts s' = []
    ∧ totalPages s' = 0 ∧ allTags (blogPosts s') = [].
Proof.
  intros Hrej (fetched & Hall & ->).
  destruct (Promise_all_rejected p q r fetched Hall Hrej) as (e & -> & _).
  split; [done|]. unfold step. simpl. unfold filterByTags.
  destruct (0 <? Z.of_nat (length (selectedTags s))); done.
Qed.

Lemma failed_load_shows_no_posts_witness :
  let p : promise (list (Item.t unit)) := Rejected "503" in
  let q : promise (list JoinRow.t) := Pending in
  let r : promise (list Tag.t) := Fulfilled [] in
  let s :=
    run (λ _, 0) [Loaded [mkPost 1 "a" "A" "a.png" "2024-01-01" ["art"] tt]]
      (mounted (λ _, 0)) in
  loadPosts "Error fetching articles:"
    (fst (try_catch "Error fetching articles with tags:"
            (Promise_all_in_order p q r)))
  = (Some (Loaded []), [])
  ∧ let s' := fst (step (λ _, 0) (Loaded []) s) in
    blogPosts s' = [] ∧ filteredPosts s' = [] ∧ displayedPosts s' = []
    ∧ totalPages s' = 0 ∧ allTags (blogPosts s') = [].
Proof.
  intros p q r s.
  apply (failed_load_shows_no_posts (λ _, 0)
           "Error fetching articles with tags:" "Error fetching articles:"
           p q r _ s).
  - left. by exists "503".
  - eexists. split; [apply Promise_all_total | done].
Defined.
